(** * NanoChat backend: ledger, contract engine, chat relay, crypto envelope

    A shallow embedding of the backend classes of
    [nanochat-mobile-complete.js] (Blockchain, Chat, SmartContract,
    CryptoUtils) and the properties checked against them.

    Conventions of the embedding.
    - JavaScript strings are represented by their UTF-8 bytes ([string]);
      [Buffer.from(s)] and [buf.toString()] are then the identity.
    - JavaScript numbers that the backend handles (indices, timestamps,
      amounts) are integers and are represented in [Z].
    - [Date.now()] is an input: every operation that reads the clock takes
      the value(s) it reads as arguments, one per call of [Date.now()].
    - Arrays that are shared by reference live in an explicit store.
    - Library functions the code calls but does not define ([scrypt],
      libsodium's secretbox) are Section variables. *)

From Stdlib Require Import Ascii String DecimalString.
From Stdlib Require Strings.Byte.
From stdpp Require Import base option list gmap strings fin_maps.

Open Scope Z_scope.

(** ** Buffer hex encoding: [buf.toString('hex')] and [Buffer.from(s, 'hex')] *)

Module Hex.

Definition digit (n : N) : ascii :=
  if (n <? 10)%N then ascii_of_N (48 + n) else ascii_of_N (87 + n).

Definition value (c : ascii) : option N :=
  let n := N_of_ascii c in
  if ((48 <=? n) && (n <=? 57))%N then Some (n - 48)%N
  else if ((97 <=? n) && (n <=? 102))%N then Some (n - 87)%N
  else if ((65 <=? n) && (n <=? 70))%N then Some (n - 55)%N
  else None.

(** [buf.toString('hex')]: two lower-case digits per byte. *)
Fixpoint encode (bs : list Byte.byte) : string :=
  match bs with
  | [] => EmptyString
  | b :: rest =>
      let n := Byte.to_N b in
      String (digit (n / 16)) (String (digit (n mod 16)) (encode rest))
  end.

(** [Buffer.from(s, 'hex')]: decodes pairs of digits and stops at the first
    pair that is not hexadecimal (or at a dangling last character). *)
Fixpoint decode (s : string) : list Byte.byte :=
  match s with
  | String a (String b rest) =>
      match value a, value b with
      | Some hi, Some lo =>
          match Byte.of_N (16 * hi + lo) with
          | Some byte => byte :: decode rest
          | None => []
          end
      | _, _ => []
      end
  | _ => []
  end.

End Hex.

(** ** [JSON.stringify] on the values the backend serialises *)

Module Json.

#[local] Set Warnings "-register-all".

Inductive json :=
| JNum (n : Z)
| JStr (s : string)
| JArr (items : list json)
| JObj (fields : list (string * json)).

Definition string_of_Z (n : Z) : string := NilZero.string_of_int (Z.to_int n).

Definition hex4 (n : N) : string :=
  String "0" (String "0" (String (Hex.digit (n / 16)) (String (Hex.digit (n mod 16)) EmptyString))).

Definition dquote : ascii := ascii_of_N 34.

(** QuoteJSONString, character by character. *)
Definition escape_char (c : ascii) : string :=
  let n := N_of_ascii c in
  if (n =? 34)%N then String "\" (String dquote EmptyString)
  else if (n =? 92)%N then "\\"
  else if (n =? 8)%N then "\b"
  else if (n =? 9)%N then "\t"
  else if (n =? 10)%N then "\n"
  else if (n =? 12)%N then "\f"
  else if (n =? 13)%N then "\r"
  else if (n <? 32)%N then "\u" +:+ hex4 n
  else String c EmptyString.

Fixpoint escape (s : string) : string :=
  match s with
  | EmptyString => EmptyString
  | String c rest => escape_char c +:+ escape rest
  end.

Definition quote (s : string) : string :=
  String dquote (escape s +:+ String dquote EmptyString).

Fixpoint join (sep : string) (l : list string) : string :=
  match l with
  | [] => EmptyString
  | [x] => x
  | x :: rest => x +:+ sep +:+ join sep rest
  end.

Fixpoint stringify (j : json) : string :=
  match j with
  | JNum n => string_of_Z n
  | JStr s => quote s
  | JArr items => "[" +:+ join "," (map stringify items) +:+ "]"
  | JObj fields =>
      "{" +:+ join "," (map (fun kv => quote (fst kv) +:+ ":" +:+ stringify (snd kv)) fields) +:+ "}"
  end.

End Json.

Import Json.

(** ** Completion of a call: a normal return or a thrown exception *)

Inductive jserror := TypeError | SodiumError.

Inductive completion (A : Type) :=
| Normal (a : A)
| Throw (e : jserror).
Arguments Normal {A} a.
Arguments Throw {A} e.

(** ** Data of the ledger and of the contract engine *)

(** A value found in a [hash] or [previousHash] field: the string literal
    ['0'] of the genesis block, or the promise that [calculateHash]
    returns, represented by the hex string it resolves to.  Two promises
    are compared through that string. *)
Inductive hashval :=
| HString (s : string)
| HPromise (hex : string).

Record Transaction := mkTransaction {
  sender : string;
  receiver : string;
  amount : Z
}.

(** Arrays of transactions are JavaScript objects held by reference: a
    block and the pool may name the same array.  [ref] is an address in
    the store of arrays. *)
Abbreviation ref := nat (only parsing).
Abbreviation store := (list (list Transaction)) (only parsing).

Definition alloc (a : list Transaction) (h : store) : ref * store :=
  (length h, h ++ [a]).

Definition deref (r : ref) (h : store) : list Transaction :=
  default [] (h !! r).

(** [array.push(tx)] on the array at [r]. *)
Definition push (r : ref) (tx : Transaction) (h : store) : store :=
  alter (fun a => a ++ [tx]) r h.

Module Block.
Record t := mk {
  index : Z;
  previousHash : hashval;
  timestamp : Z;
  transactions : ref;
  hash : hashval
}.
End Block.

Module Contract.
Record t := mk {
  id : Z;
  partyA : string;
  partyB : string;
  condition : Z;
  amount : Z;
  timestamp : Z;
  executed : bool
}.

Definition set_executed (v : bool) (c : t) : t :=
  mk (id c) (partyA c) (partyB c) (condition c) (amount c) (timestamp c) v.
End Contract.

(** The state of the server process: the store of arrays, the one
    [Blockchain] object ([chain], [transactions]) and the one
    [SmartContract] object ([contracts]), whose [blockchain] field is that
    same [Blockchain] object. *)
Record State := mkState {
  arrays : store;
  chain : list Block.t;
  transactions : ref;
  contracts : list Contract.t
}.

(** The pending pool: the contents of the array [this.transactions]. *)
Definition pool (s : State) : list Transaction := deref (transactions s) (arrays s).

Definition tx_json (tx : Transaction) : json :=
  JObj [("sender", JStr (sender tx)); ("receiver", JStr (receiver tx));
        ("amount", JNum (amount tx))].

(** A promise has no enumerable property: [JSON.stringify] prints it as an
    empty object. *)
Definition hashval_json (h : hashval) : json :=
  match h with
  | HString s => JStr s
  | HPromise _ => JObj []
  end.

Definition block_content_json (index : Z) (previousHash : hashval) (timestamp : Z)
    (txs : list Transaction) : json :=
  JObj [("index", JNum index); ("previousHash", hashval_json previousHash);
        ("timestamp", JNum timestamp); ("transactions", JArr (map tx_json txs))].

Section Backend.

(** [scrypt(password, salt, N, r, p, dkLen)] of the scrypt library, by the
    bytes its promise resolves to. *)
Variable scrypt : string -> string -> Z -> Z -> Z -> Z -> list Byte.byte.

(** [calculateHash]: the array argument is serialised during the call, so
    the function takes the contents the array has at that moment. *)
Definition calculateHash (index : Z) (previousHash : hashval) (timestamp : Z)
    (txs : list Transaction) : hashval :=
  HPromise (Hex.encode
    (scrypt (stringify (block_content_json index previousHash timestamp txs))
            "salt" 1024 8 1 32)).

(** [genesisBlock]: [Date.now()] is called twice, first for the
    [timestamp] field ([now_field]) and then inside the argument list of
    [calculateHash] ([now_seal]).  The array literal passed to
    [calculateHash] is not stored anywhere and is not allocated here. *)
Definition genesisBlock (now_field now_seal : Z) (s : State) : State :=
  let (r, h) := alloc [] (arrays s) in
  let block :=
    Block.mk 0 (HString "0") now_field r
             (calculateHash 0 (HString "0") now_seal []) in
  mkState h (chain s ++ [block]) (transactions s) (contracts s).

(** [new Blockchain()] followed by [new SmartContract(blockchain)]. *)
Definition boot (now_field now_seal : Z) : State :=
  let (r, h) := alloc [] [] in
  genesisBlock now_field now_seal (mkState h [] r []).

Definition createTransaction (sender receiver : string) (amount : Z) (s : State) : State :=
  mkState (push (transactions s) (mkTransaction sender receiver amount) (arrays s))
          (chain s) (transactions s) (contracts s).

(** [mineBlock]: reading [.hash] of [this.chain[this.chain.length - 1]]
    throws a TypeError when the chain is empty. *)
Definition mineBlock (difficulty : Z) (now : Z) (s : State) : completion (Block.t * State) :=
  match last (chain s) with
  | None => Throw TypeError
  | Some prev =>
      let index := Z.of_nat (length (chain s)) in
      let previousHash := Block.hash prev in
      let block :=
        Block.mk index previousHash now (transactions s)
                 (calculateHash index previousHash now (pool s)) in
      let (r, h) := alloc [] (arrays s) in
      Normal (block, mkState h (chain s ++ [block]) r (contracts s))
  end.

Definition createContract (partyA partyB : string) (condition amount : Z) (now : Z)
    (s : State) : Contract.t * State :=
  let contract :=
    Contract.mk (Z.of_nat (length (contracts s))) partyA partyB condition amount now false in
  (contract, mkState (arrays s) (chain s) (transactions s) (contracts s ++ [contract])).

(** [this.contracts[id]]: [undefined] outside the array. *)
Definition contract_at (id : Z) (s : State) : option Contract.t :=
  if id <? 0 then None else contracts s !! Z.to_nat id.

Definition executeContract (id : Z) (now : Z) (s : State) : completion (bool * State) :=
  match contract_at id s with
  | None => Normal (false, s)
  | Some contract =>
      if Contract.executed contract then Normal (false, s)
      else if now <=? Contract.condition contract then
        let s1 := createTransaction (Contract.partyA contract) (Contract.partyB contract)
                                    (Contract.amount contract) s in
        Normal (true,
                mkState (arrays s1) (chain s1) (transactions s1)
                        (<[Z.to_nat id := Contract.set_executed true contract]> (contracts s1)))
      else Normal (false, s)
  end.

(** Calls that the boundary makes on the two objects. *)
Inductive call :=
| CreateTransaction (sender receiver : string) (amount : Z)
| MineBlock (difficulty now : Z)
| CreateContract (partyA partyB : string) (condition amount now : Z)
| ExecuteContract (id now : Z).

Definition step (c : call) (s : State) : completion State :=
  match c with
  | CreateTransaction a b n => Normal (createTransaction a b n s)
  | MineBlock d now =>
      match mineBlock d now s with
      | Normal (_, s') => Normal s'
      | Throw e => Throw e
      end
  | CreateContract a b cond n now => Normal (snd (createContract a b cond n now s))
  | ExecuteContract id now =>
      match executeContract id now s with
      | Normal (_, s') => Normal s'
      | Throw e => Throw e
      end
  end.

Fixpoint run (cs : list call) (s : State) : completion State :=
  match cs with
  | [] => Normal s
  | c :: rest =>
      match step c s with
      | Normal s' => run rest s'
      | Throw e => Throw e
      end
  end.

Definition reachable (s : State) : Prop :=
  exists now_field now_seal cs, run cs (boot now_field now_seal) = Normal s.

(** The [hash] of [b] is the seal of the four other fields [b] stores, the
    transactions being those of the array [b] refers to in [s]. *)
Definition sealed (s : State) (b : Block.t) : Prop :=
  Block.hash b =
  calculateHash (Block.index b) (Block.previousHash b) (Block.timestamp b)
                (deref (Block.transactions b) (arrays s)).

End Backend.

(** ** Chat relay *)

Module Chat.

Inductive readyState := CONNECTING | OPEN | CLOSING | CLOSED.

#[global] Instance readyState_eq_dec : EqDecision readyState.
Proof. solve_decision. Defined.

(** A WebSocket as the relay sees it: its [readyState] and the data handed
    to [send], oldest first. *)
Record Socket := mkSocket {
  state : readyState;
  sent : list string
}.

Abbreviation conn := nat (only parsing).

(** [wss.clients] is the library's set of sockets; [users] is the [Map]
    from nickname to socket, kept in insertion order. *)
Record t := mk {
  clients : gmap conn Socket;
  users : list (string * conn)
}.

(** [Map.prototype.set]: an existing key keeps its place. *)
Fixpoint map_set (k : string) (v : conn) (m : list (string * conn)) : list (string * conn) :=
  match m with
  | [] => [(k, v)]
  | (k', v') :: rest =>
      if decide (k = k') then (k, v) :: rest else (k', v') :: map_set k v rest
  end.

Definition map_delete (k : string) (m : list (string * conn)) : list (string * conn) :=
  filter (fun kv => kv.1 ≠ k) m.

Definition event (message : string) : string :=
  stringify (JObj [("type", JStr "message"); ("content", JStr message)]).

Definition send (data : string) (ws : Socket) : Socket :=
  mkSocket (state ws) (sent ws ++ [data]).

Definition broadcast (message : string) (c : t) : t :=
  mk ((fun client =>
         if decide (state client = OPEN) then send (event message) client else client)
      <$> clients c)
     (users c).

(** The parsed payload of an inbound frame, by its [type]. *)
Inductive data :=
| Login (nickname : string)
| Message (nickname content : string)
| Other.

(** The ['message'] handler of socket [ws]. *)
Definition on_message (ws : conn) (d : data) (c : t) : t :=
  match d with
  | Login nickname =>
      broadcast (nickname +:+ " si è connesso!") (mk (clients c) (map_set nickname ws (users c)))
  | Message nickname content => broadcast (nickname +:+ ": " +:+ content) c
  | Other => c
  end.

(** The ['close'] handler of socket [ws]: every nickname bound to [ws] is
    deleted and announced, in the order of the map. *)
Definition on_close (ws : conn) (c : t) : t :=
  fold_left
    (fun acc entry =>
       if decide (entry.2 = ws) then
         broadcast (entry.1 +:+ " si è disconnesso!")
                   (mk (clients acc) (map_delete entry.1 (users acc)))
       else acc)
    (users c) c.

End Chat.

(** ** Encryption envelope *)

Record Envelope := mkEnvelope {
  ciphertext : string;
  nonce : string;
  key : string
}.

Definition crypto_secretbox_KEYBYTES : nat := 32.
Definition crypto_secretbox_NONCEBYTES : nat := 24.

Section CryptoUtils.

(** libsodium's secretbox.  [crypto_secretbox_easy] takes the message as a
    string; [crypto_secretbox_open_easy] returns [None] where the library
    throws. *)
Variable crypto_secretbox_easy : string -> list Byte.byte -> list Byte.byte -> list Byte.byte.
Variable crypto_secretbox_open_easy :
  list Byte.byte -> list Byte.byte -> list Byte.byte -> option (list Byte.byte).

(** [encrypt]: [rnd_key] and [rnd_nonce] are what the two calls of
    [randombytes_buf] return. *)
Definition encrypt (rnd_key rnd_nonce : list Byte.byte) (data : string) : Envelope :=
  let ciphertext := crypto_secretbox_easy data rnd_nonce rnd_key in
  mkEnvelope (Hex.encode ciphertext) (Hex.encode rnd_nonce) (Hex.encode rnd_key).

Definition decrypt (ciphertext nonce key : string) : completion string :=
  match crypto_secretbox_open_easy (Hex.decode ciphertext) (Hex.decode nonce) (Hex.decode key) with
  | Some decrypted => Normal (string_of_list_byte decrypted)
  | None => Throw SodiumError
  end.

End CryptoUtils.

(** ** Invariant of the server state *)

Definition genesis_sentinel (c : list Block.t) : Prop :=
  ∃ g, c !! 0%nat = Some g ∧ Block.previousHash g = HString "0".

Definition linked (c : list Block.t) : Prop :=
  ∀ i b b', c !! i = Some b → c !! S i = Some b' →
            Block.previousHash b' = Block.hash b.

(** The pool array exists and no block of the chain holds it. *)
Definition pool_private (s : State) : Prop :=
  (transactions s < length (arrays s))%nat ∧
  ∀ b, b ∈ chain s →
       (Block.transactions b < length (arrays s))%nat ∧
       Block.transactions b ≠ transactions s.

Definition ids_sequential (cs : list Contract.t) : Prop :=
  ∀ i c, cs !! i = Some c → Contract.id c = Z.of_nat i.

Record inv (s : State) : Prop := mkInv {
  inv_pool : pool_private s;
  inv_genesis : genesis_sentinel (chain s);
  inv_linked : linked (chain s);
  inv_ids : ids_sequential (contracts s)
}.

(** Every block of [s] is still in [s'], at its place and with its
    transactions. *)
Definition blocks_kept (s s' : State) : Prop :=
  chain s `prefix_of` chain s' ∧
  ∀ b, b ∈ chain s →
       deref (Block.transactions b) (arrays s') = deref (Block.transactions b) (arrays s).

(** A contract that [executeContract] refuses at every time from [t] on. *)
Definition spent (t : Z) (c : Contract.t) : Prop :=
  Contract.executed c = true ∨ Contract.condition c < t.

(** [createTransaction] once per element, in order. *)
Definition submit_all (txs : list Transaction) (s : State) : State :=
  fold_left (fun acc tx => createTransaction (sender tx) (receiver tx) (amount tx) acc) txs s.

(** A stand-in for the scrypt library on concrete inputs: it returns the
    bytes of the password. *)
Definition sample_scrypt (password salt : string) (N r p dkLen : Z) : list Byte.byte :=
  list_byte_of_string password.

#[global] Instance byte_eq_decision : EqDecision Byte.byte := Byte.byte_eq_dec.

(** A stand-in for libsodium's secretbox on concrete inputs: the box is
    the key, the nonce and the message bytes in a row, and it opens only
    under the key and nonce it was made with. *)
Definition sample_secretbox_easy (m : string) (n k : list Byte.byte) : list Byte.byte :=
  k ++ n ++ list_byte_of_string m.

Definition sample_secretbox_open_easy (c n k : list Byte.byte) : option (list Byte.byte) :=
  if decide (take (length k + length n) c = k ++ n)
  then Some (drop (length k + length n) c)
  else None.

(** The scenario of a contract created at time 1000 with deadline 2000. *)
Definition scenario : State :=
  snd (createContract "A" "B" 2000 50 1000 (boot sample_scrypt 1000 1000)).

(** ** Accounting over the ledger *)

Definition block_transactions (s : State) (b : Block.t) : list Transaction :=
  deref (Block.transactions b) (arrays s).

(** Every transaction the ledger holds: those of the blocks in chain
    order, then the pool. *)
Definition ledger (s : State) : list Transaction :=
  concat (block_transactions s <$> chain s) ++ pool s.

(** The transaction that a call hands to [createTransaction], if any: the
    arguments of a direct call, or the transfer of the contract when
    [executeContract] succeeds. *)
Definition posted (c : call) (s : State) : list Transaction :=
  match c with
  | CreateTransaction a b n => [mkTransaction a b n]
  | ExecuteContract id now =>
      match executeContract id now s, contract_at id s with
      | Normal (true, _), Some k =>
          [mkTransaction (Contract.partyA k) (Contract.partyB k) (Contract.amount k)]
      | _, _ => []
      end
  | _ => []
  end.

Fixpoint posted_by (scrypt : string -> string -> Z -> Z -> Z -> Z -> list Byte.byte)
    (cs : list call) (s : State) : list Transaction :=
  match cs with
  | [] => []
  | c :: rest =>
      match step scrypt c s with
      | Normal s' => posted c s ++ posted_by scrypt rest s'
      | Throw _ => []
      end
  end.

Definition is_CreateTransaction (c : call) : bool :=
  match c with CreateTransaction _ _ _ => true | _ => false end.

Definition is_MineBlock (c : call) : bool :=
  match c with MineBlock _ _ => true | _ => false end.

Definition is_CreateContract (c : call) : bool :=
  match c with CreateContract _ _ _ _ _ => true | _ => false end.

Definition count_calls (p : call -> bool) (cs : list call) : nat :=
  length (List.filter p cs).

Definition executed_count (s : State) : nat :=
  length (List.filter Contract.executed (contracts s)).

Definition indexed (c : list Block.t) : Prop :=
  ∀ i b, c !! i = Some b → Block.index b = Z.of_nat i.

(** Two contract records that agree on everything but the flag. *)
Definition same_terms (c c' : Contract.t) : Prop :=
  Contract.id c' = Contract.id c ∧ Contract.partyA c' = Contract.partyA c ∧
  Contract.partyB c' = Contract.partyB c ∧ Contract.condition c' = Contract.condition c ∧
  Contract.amount c' = Contract.amount c ∧ Contract.timestamp c' = Contract.timestamp c.

(** ** Events of the chat relay *)

Inductive chat_input :=
| FrameFrom (ws : nat) (d : Chat.data)
| ClosedBy (ws : nat).

Definition chat_handle (i : chat_input) (c : Chat.t) : Chat.t :=
  match i with
  | FrameFrom ws d => Chat.on_message ws d c
  | ClosedBy ws => Chat.on_close ws c
  end.

(** The frames announcing the nicknames that [users] binds to [ws], in the
    order of the map. *)
Definition departures (ws : nat) (users : list (string * nat)) : list string :=
  (λ e, Chat.event (e.1 +:+ " si è disconnesso!")) <$> filter (λ e, e.2 = ws) users.

(** Handing [frames] to a socket: an open socket gets them appended in
    order, any other socket is left alone. *)
Definition deliver (frames : list string) (client : Chat.Socket) : Chat.Socket :=
  if decide (Chat.state client = Chat.OPEN)
  then Chat.mkSocket (Chat.state client) (Chat.sent client ++ frames)
  else client.

(** ** Pentest tools *)

Module Pentest.

(** The promise an [async] method returns: resolved with an object whose
    [result] field is given, or rejected with an [Error] of that message. *)
Inductive outcome :=
| Resolved (result : string)
| Rejected (message : string).

Section WithExec.

(** [execPromise(command)]: the [stdout] it resolves with, or [None] when
    it rejects. *)
Variable execPromise : string -> option string.

(** Both methods return the commands they hand to [execPromise] and the
    outcome. *)
Definition runNmap (target : string) : list string * outcome :=
  let command := "nmap -sP " +:+ target in
  ([command],
   match execPromise command with
   | Some stdout => Resolved stdout
   | None => Rejected "Errore durante la scansione Nmap"
   end).

Definition runTool (tool target : string) : list string * outcome :=
  if decide (tool = "nmap") then runNmap target
  else if decide (tool = "aircrack") then ([], Resolved "Analisi Wi-Fi simulata")
  else if decide (tool = "metasploit") then ([], Resolved "Payload Metasploit simulato")
  else if decide (tool = "wireshark") then ([], Resolved "Cattura pacchetti simulata")
  else if decide (tool = "hydra") then ([], Resolved "Brute force simulato")
  else ([], Rejected "Tool non supportato").

End WithExec.
End Pentest.

(** ** The routes of the server *)

Inductive request :=
| PostTransfer (sender receiver : string) (amount : Z)
| PostSmartcontract (partyA partyB : string) (condition amount : Z)
| PostPentest (tool target : string).

(** What a route answers: the three [success: true] bodies, and the status
    500 body with its [error] message. *)
Inductive response :=
| TransferOk (encryptedData : Envelope)
| SmartcontractOk (contract : Contract.t) (encryptedData : Envelope)
| PentestOk (result : string)
| Failure (error : string).

(** A request with what the handler reads from the outside while serving
    it: the two [randombytes_buf] results and the clock. *)
Record arrival := mkArrival {
  req : request;
  rnd_key : list Byte.byte;
  rnd_nonce : list Byte.byte;
  clock : Z
}.

Definition contract_request_json (partyA partyB : string) (condition amount : Z) : json :=
  JObj [("partyA", JStr partyA); ("partyB", JStr partyB);
        ("condition", JNum condition); ("amount", JNum amount)].

Section Server.

Variable crypto_secretbox_easy : string -> list Byte.byte -> list Byte.byte -> list Byte.byte.
Variable execPromise : string -> option string.

(** The three [app.post] handlers.  [createTransaction] and
    [createContract] do not throw, so the [catch] of the first two routes
    is never entered. *)
Definition handle (a : arrival) (s : State) : response * State :=
  match req a with
  | PostTransfer sender receiver amount =>
      let encryptedData :=
        encrypt crypto_secretbox_easy (rnd_key a) (rnd_nonce a)
                (stringify (tx_json (mkTransaction sender receiver amount))) in
      (TransferOk encryptedData, createTransaction sender receiver amount s)
  | PostSmartcontract partyA partyB condition amount =>
      let encryptedData :=
        encrypt crypto_secretbox_easy (rnd_key a) (rnd_nonce a)
                (stringify (contract_request_json partyA partyB condition amount)) in
      let (contract, s') := createContract partyA partyB condition amount (clock a) s in
      (SmartcontractOk contract encryptedData, s')
  | PostPentest tool target =>
      match snd (Pentest.runTool execPromise tool target) with
      | Pentest.Resolved result => (PentestOk result, s)
      | Pentest.Rejected message => (Failure message, s)
      end
  end.

(** Requests served one after the other, in the order in which their
    handlers resume after awaiting [encrypt] or [runTool]. *)
Fixpoint serve (arrivals : list arrival) (s : State) : list response * State :=
  match arrivals with
  | [] => ([], s)
  | a :: rest =>
      let (r, s1) := handle a s in
      let (rs, s2) := serve rest s1 in
      (r :: rs, s2)
  end.

End Server.

(** The transfers that a list of requests asks for, in order. *)
Definition transfers (arrivals : list arrival) : list Transaction :=
  arrivals ≫= λ a,
    match req a with
    | PostTransfer sender receiver amount => [mkTransaction sender receiver amount]
    | _ => []
    end.

Definition is_PostSmartcontract (a : arrival) : bool :=
  match req a with PostSmartcontract _ _ _ _ => true | _ => false end.

(** The state that calls lead to under the stand-in scrypt (the start
    state when a call throws). *)
Definition state_after (cs : list call) (s : State) : State :=
  match run sample_scrypt cs s with
  | Normal s' => s'
  | Throw _ => s
  end.

(** A relay with two open connections and a closed one, alice and bob
    logged in on the open ones. *)
Definition lobby : Chat.t :=
  Chat.mk {[ 1%nat := Chat.mkSocket Chat.OPEN [];
             2%nat := Chat.mkSocket Chat.OPEN [];
             3%nat := Chat.mkSocket Chat.CLOSED [] ]}
          [("alice", 1%nat); ("bob", 2%nat)].

(** A stand-in for [execPromise]: it answers one command and rejects the
    others. *)
Definition sample_exec (command : string) : option string :=
  if decide (command = "nmap -sP 10.0.0.1") then Some "Host is up" else None.

(** Reading back the first character of an escaped JSON string, the way
    [JSON.parse] undoes [escape_char]: the character and what follows
    it. *)
Definition unescape_head (s : string) : option (ascii * string) :=
  match s with
  | EmptyString => None
  | String c rest =>
      if (N_of_ascii c =? 92)%N then
        match rest with
        | EmptyString => None
        | String x rest' =>
            let n := N_of_ascii x in
            if (n =? 34)%N then Some (ascii_of_N 34, rest')
            else if (n =? 92)%N then Some (ascii_of_N 92, rest')
            else if (n =? 98)%N then Some (ascii_of_N 8, rest')
            else if (n =? 116)%N then Some (ascii_of_N 9, rest')
            else if (n =? 110)%N then Some (ascii_of_N 10, rest')
            else if (n =? 102)%N then Some (ascii_of_N 12, rest')
            else if (n =? 114)%N then Some (ascii_of_N 13, rest')
            else if (n =? 117)%N then
              match rest' with
              | String _ (String _ (String h (String l rest''))) =>
                  match Hex.value h, Hex.value l with
                  | Some hi, Some lo => Some (ascii_of_N (16 * hi + lo), rest'')
                  | _, _ => None
                  end
              | _ => None
              end
            else None
        end
      else Some (c, rest)
  end.

(** * Properties *)

(** ** Hex encoding *)

Lemma hex_decode_byte (b : Byte.byte) (rest : string) :
  Hex.decode (String (Hex.digit (Byte.to_N b / 16))
                     (String (Hex.digit (Byte.to_N b mod 16)) rest))
  = b :: Hex.decode rest.
Proof. destruct b; reflexivity. Qed.

Lemma hex_decode_encode (bs : list Byte.byte) : Hex.decode (Hex.encode bs) = bs.
Proof.
  induction bs as [|b bs IH]; [reflexivity|].
  cbn [Hex.encode]. rewrite hex_decode_byte. by rewrite IH.
Qed.

(** ** The store of arrays *)

Lemma length_push r tx h : length (push r tx h) = length h.
Proof. apply length_alter. Qed.

Lemma deref_push_ne r r' tx h : r ≠ r' → deref r' (push r tx h) = deref r' h.
Proof. intros Hne. unfold deref, push. by rewrite list_lookup_alter_ne. Qed.

Lemma deref_push_eq r tx h :
  (r < length h)%nat → deref r (push r tx h) = deref r h ++ [tx].
Proof.
  intros Hlt. unfold deref, push. rewrite list_lookup_alter_eq.
  destruct (lookup_lt_is_Some_2 h r Hlt) as [a Ha]. by rewrite Ha.
Qed.

Lemma deref_alloc_old r a h :
  (r < length h)%nat → deref r (h ++ [a]) = deref r h.
Proof. intros Hlt. unfold deref. by rewrite lookup_app_l. Qed.

Lemma deref_alloc_new a h : deref (length h) (h ++ [a]) = a.
Proof. unfold deref. by rewrite list_lookup_middle. Qed.

Lemma linked_snoc c prev b :
  linked c → last c = Some prev → Block.previousHash b = Block.hash prev →
  linked (c ++ [b]).
Proof.
  intros Hl Hlast Hb i x y Hx Hy.
  assert (Hlen : (S i < length (c ++ [b]))%nat) by (eapply lookup_lt_Some; eauto).
  rewrite length_app in Hlen. cbn in Hlen.
  destruct (decide (S i < length c)%nat) as [Hin|Hout].
  - rewrite lookup_app_l in Hx by lia. rewrite lookup_app_l in Hy by lia. eauto.
  - assert (S i = length c) as Hi by lia.
    rewrite lookup_app_l in Hx by lia.
    rewrite Hi, list_lookup_middle in Hy by done.
    rewrite last_lookup in Hlast.
    replace (pred (length c)) with i in Hlast by lia.
    congruence.
Qed.

Lemma genesis_sentinel_snoc c b : genesis_sentinel c → genesis_sentinel (c ++ [b]).
Proof.
  intros (g & Hg & Hp). exists g. split; [|done].
  by apply lookup_app_l_Some.
Qed.

Lemma ids_sequential_snoc cs c :
  ids_sequential cs → Contract.id c = Z.of_nat (length cs) → ids_sequential (cs ++ [c]).
Proof.
  intros Hids Hc i x Hx.
  apply lookup_app_Some in Hx as [Hx|[Hge Hx]]; [by apply Hids|].
  apply list_lookup_singleton_Some in Hx as [Hi ->].
  rewrite Hc. f_equal. lia.
Qed.

Lemma ids_sequential_set_executed cs i c v :
  ids_sequential cs → cs !! i = Some c →
  ids_sequential (<[i := Contract.set_executed v c]> cs).
Proof.
  intros Hids Hc j x Hx.
  destruct (decide (i = j)) as [->|Hne].
  - rewrite list_lookup_insert_eq in Hx by (eapply lookup_lt_Some; eauto).
    injection Hx as <-. cbn. by apply Hids.
  - rewrite list_lookup_insert_ne in Hx by done. by apply Hids.
Qed.

Lemma contract_at_Some id s c :
  contract_at id s = Some c → 0 ≤ id ∧ contracts s !! Z.to_nat id = Some c.
Proof.
  unfold contract_at. destruct (Z.ltb_spec id 0); [done|]. auto.
Qed.

Lemma contract_at_of_nat i s : contract_at (Z.of_nat i) s = contracts s !! i.
Proof.
  unfold contract_at. destruct (Z.ltb_spec (Z.of_nat i) 0); [lia|].
  by rewrite Nat2Z.id.
Qed.

Section BackendProperties.

Variable scrypt : string -> string -> Z -> Z -> Z -> Z -> list Byte.byte.

Lemma inv_boot now_field now_seal : inv (boot scrypt now_field now_seal).
Proof.
  split; cbn.
  - split; cbn; [lia|]. intros b Hb. apply list_elem_of_singleton in Hb as ->.
    cbn. split; [lia|done].
  - eexists. split; [reflexivity|done].
  - intros i b b' _ Hb'. destruct i; discriminate.
  - intros i c Hc. destruct i; discriminate.
Qed.

Lemma inv_createTransaction a b n s : inv s → inv (createTransaction a b n s).
Proof.
  intros [[Hp Hb] Hg Hl Hi]. split; cbn; try done.
  split; cbn; rewrite length_push; [done|]. apply Hb.
Qed.

Lemma mineBlock_returns d now s :
  inv s → ∃ b s', mineBlock scrypt d now s = Normal (b, s').
Proof.
  intros [_ (g & Hg & _) _ _]. unfold mineBlock.
  destruct (last (chain s)) as [prev|] eqn:Hlast; [cbn; eauto|].
  apply last_None in Hlast. rewrite Hlast in Hg. discriminate.
Qed.

Lemma inv_mineBlock d now s b s' :
  inv s → mineBlock scrypt d now s = Normal (b, s') → inv s'.
Proof.
  intros [[Hp Hb] Hg Hl Hi]. unfold mineBlock.
  destruct (last (chain s)) as [prev|] eqn:Hlast; [|done].
  cbn. intros [= <- <-]. split; cbn.
  - split; cbn; rewrite length_app; cbn; [lia|].
    intros x Hx. apply elem_of_app in Hx as [Hx|Hx].
    + destruct (Hb x Hx). lia.
    + apply list_elem_of_singleton in Hx as ->. cbn. lia.
  - by apply genesis_sentinel_snoc.
  - by eapply linked_snoc.
  - done.
Qed.

Lemma inv_createContract a b cond n now s :
  inv s → inv (snd (createContract a b cond n now s)).
Proof.
  intros [Hp Hg Hl Hi]. split; cbn; try done.
  by apply ids_sequential_snoc.
Qed.

Lemma executeContract_returns id now s :
  ∃ r s', executeContract id now s = Normal (r, s').
Proof.
  unfold executeContract.
  destruct (contract_at id s) as [c|]; [|eauto].
  destruct (Contract.executed c); [eauto|].
  destruct (now <=? Contract.condition c); eauto.
Qed.

Lemma inv_executeContract id now s r s' :
  inv s → executeContract id now s = Normal (r, s') → inv s'.
Proof.
  intros Hinv. unfold executeContract.
  destruct (contract_at id s) as [c|] eqn:Hc; [|by intros [= <- <-]].
  destruct (Contract.executed c); [by intros [= <- <-]|].
  destruct (now <=? Contract.condition c); [|by intros [= <- <-]].
  intros [= <- <-]. apply contract_at_Some in Hc as [_ Hc].
  destruct (inv_createTransaction (Contract.partyA c) (Contract.partyB c)
              (Contract.amount c) s Hinv) as [Hp Hg Hl Hi].
  split; cbn; try done.
  by apply ids_sequential_set_executed.
Qed.

Lemma step_returns c s : inv s → ∃ s', step scrypt c s = Normal s'.
Proof.
  intros Hinv. destruct c as [a b n|d now|a b cond n now|id now]; cbn; eauto.
  - destruct (mineBlock_returns d now s Hinv) as (b & s' & ->). eauto.
  - destruct (executeContract_returns id now s) as (r & s' & ->). eauto.
Qed.

Lemma inv_step c s s' : inv s → step scrypt c s = Normal s' → inv s'.
Proof.
  intros Hinv. destruct c as [a b n|d now|a b cond n now|id now]; cbn.
  - intros [= <-]. by apply inv_createTransaction.
  - destruct (mineBlock scrypt d now s) as [[b s1]|] eqn:Hm; [|done].
    intros [= <-]. by eapply inv_mineBlock.
  - intros [= <-]. by apply inv_createContract.
  - destruct (executeContract id now s) as [[r s1]|] eqn:He; [|done].
    intros [= <-]. by eapply inv_executeContract.
Qed.

Lemma run_returns cs s : inv s → ∃ s', run scrypt cs s = Normal s' ∧ inv s'.
Proof.
  revert s. induction cs as [|c cs IH]; intros s Hinv; cbn; [eauto|].
  destruct (step_returns c s Hinv) as [s1 Hs1]. rewrite Hs1.
  apply IH. by eapply inv_step.
Qed.

Lemma inv_run cs s s' : inv s → run scrypt cs s = Normal s' → inv s'.
Proof.
  intros Hinv Hrun. destruct (run_returns cs s Hinv) as (s1 & Hs1 & Hi).
  congruence.
Qed.

Lemma run_app cs1 cs2 s :
  run scrypt (cs1 ++ cs2) s =
  match run scrypt cs1 s with
  | Normal s1 => run scrypt cs2 s1
  | Throw e => Throw e
  end.
Proof.
  revert s. induction cs1 as [|c cs1 IH]; intros s; cbn; [done|].
  destruct (step scrypt c s); [apply IH|done].
Qed.

Lemma reachable_inv s : reachable scrypt s → inv s.
Proof.
  intros (t1 & t2 & cs & Hrun). eapply inv_run; [apply inv_boot|done].
Qed.

(** *** The chain only grows *)

Lemma blocks_kept_refl s : blocks_kept s s.
Proof. split; done. Qed.

Lemma blocks_kept_trans s1 s2 s3 :
  blocks_kept s1 s2 → blocks_kept s2 s3 → blocks_kept s1 s3.
Proof.
  intros [Hp12 Hd12] [Hp23 Hd23]. split; [by etrans|].
  intros b Hb. rewrite Hd23, Hd12; [done..|].
  destruct Hp12 as [k ->]. apply elem_of_app. by left.
Qed.

Lemma blocks_kept_createTransaction a b n s :
  inv s → blocks_kept s (createTransaction a b n s).
Proof.
  intros [[Hp Hb] _ _ _]. split; [done|]. cbn. intros x Hx.
  destruct (Hb x Hx) as [_ Hne]. by apply deref_push_ne.
Qed.

Lemma blocks_kept_mineBlock d now s b s' :
  inv s → mineBlock scrypt d now s = Normal (b, s') → blocks_kept s s'.
Proof.
  intros [[Hp Hb] _ _ _]. unfold mineBlock.
  destruct (last (chain s)) as [prev|]; [|done].
  cbn. intros [= <- <-]. split; cbn; [by apply prefix_app_r|].
  intros x Hx. destruct (Hb x Hx) as [Hlt _]. by apply deref_alloc_old.
Qed.

Lemma blocks_kept_executeContract id now s r s' :
  inv s → executeContract id now s = Normal (r, s') → blocks_kept s s'.
Proof.
  intros Hinv. unfold executeContract.
  destruct (contract_at id s) as [c|]; [|intros [= <- <-]; apply blocks_kept_refl].
  destruct (Contract.executed c); [intros [= <- <-]; apply blocks_kept_refl|].
  destruct (now <=? Contract.condition c); [|intros [= <- <-]; apply blocks_kept_refl].
  intros [= <- <-].
  apply (blocks_kept_createTransaction (Contract.partyA c) (Contract.partyB c)
           (Contract.amount c) s Hinv).
Qed.

Lemma blocks_kept_step c s s' :
  inv s → step scrypt c s = Normal s' → blocks_kept s s'.
Proof.
  intros Hinv. destruct c as [a b n|d now|a b cond n now|id now]; cbn.
  - intros [= <-]. by apply blocks_kept_createTransaction.
  - destruct (mineBlock scrypt d now s) as [[b s1]|] eqn:Hm; [|done].
    intros [= <-]. by eapply blocks_kept_mineBlock.
  - intros [= <-]. split; cbn; done.
  - destruct (executeContract id now s) as [[r s1]|] eqn:He; [|done].
    intros [= <-]. by eapply blocks_kept_executeContract.
Qed.

Lemma blocks_kept_run cs s s' :
  inv s → run scrypt cs s = Normal s' → blocks_kept s s'.
Proof.
  revert s. induction cs as [|c cs IH]; intros s Hinv; cbn.
  - intros [= <-]. apply blocks_kept_refl.
  - destruct (step scrypt c s) as [s1|] eqn:Hstep; [|done]. intros Hrun.
    eapply blocks_kept_trans; [by eapply blocks_kept_step|].
    apply IH; [by eapply inv_step|done].
Qed.

(** C1. After initialisation and any sequence of calls ([cs]), the calls
    return and the chain starts with a block whose [previousHash] is the
    sentinel ["0"], every later block's [previousHash] is the [hash] of the
    block before it, and any further calls ([more]) keep every block of
    the chain in place with the same fields and the same transactions. *)
Theorem C1_chain_linked_and_append_only (now_field now_seal : Z) (cs more : list call) :
  ∃ s s',
    run scrypt cs (boot scrypt now_field now_seal) = Normal s ∧
    run scrypt more s = Normal s' ∧
    (∃ g, chain s !! 0%nat = Some g ∧ Block.previousHash g = HString "0") ∧
    (∀ i b b', chain s !! i = Some b → chain s !! S i = Some b' →
               Block.previousHash b' = Block.hash b) ∧
    chain s `prefix_of` chain s' ∧
    (∀ b, b ∈ chain s →
          deref (Block.transactions b) (arrays s')
          = deref (Block.transactions b) (arrays s)).
Proof.
  destruct (run_returns cs _ (inv_boot now_field now_seal)) as (s & Hs & Hinv).
  destruct (run_returns more s Hinv) as (s' & Hs' & _).
  exists s, s'. split; [done|]. split; [done|].
  destruct (blocks_kept_run more s s' Hinv Hs') as [Hpre Hkeep].
  destruct Hinv as [_ Hg Hl _]. auto.
Qed.

(** *** Sealing the pool *)

Lemma inv_submit_all txs s : inv s → inv (submit_all txs s).
Proof.
  revert s. induction txs as [|tx txs IH]; intros s Hinv; cbn; [done|].
  apply IH. by apply inv_createTransaction.
Qed.

Lemma pool_createTransaction a b n s :
  inv s → pool (createTransaction a b n s) = pool s ++ [mkTransaction a b n].
Proof. intros [[Hp _] _ _ _]. unfold pool. cbn. by apply deref_push_eq. Qed.

Lemma pool_submit_all txs s : inv s → pool (submit_all txs s) = pool s ++ txs.
Proof.
  revert s. induction txs as [|tx txs IH]; intros s Hinv; cbn.
  - by rewrite app_nil_r.
  - unfold submit_all in IH. rewrite IH by by apply inv_createTransaction.
    rewrite pool_createTransaction by done. destruct tx. by rewrite <- app_assoc.
Qed.

Lemma chain_submit_all txs s : chain (submit_all txs s) = chain s.
Proof.
  revert s. induction txs as [|tx txs IH]; intros s; cbn; [done|].
  unfold submit_all in IH. by rewrite IH.
Qed.

(** C2. From a reachable state whose pool is empty, submitting the
    transactions [txs] one by one and then mining returns a block that is
    appended to the chain and holds exactly [txs] in submission order, and
    the pool is empty afterwards. *)
Theorem C2_sealed_block_holds_submissions (s : State) (txs : list Transaction) (d now : Z) :
  reachable scrypt s → pool s = [] →
  ∃ b s',
    mineBlock scrypt d now (submit_all txs s) = Normal (b, s') ∧
    chain s' = chain s ++ [b] ∧
    deref (Block.transactions b) (arrays s') = txs ∧
    pool s' = [].
Proof.
  intros Hreach Hempty. apply reachable_inv in Hreach.
  pose proof (inv_submit_all txs s Hreach) as Hinv.
  pose proof (pool_submit_all txs s Hreach) as Hpool.
  rewrite Hempty in Hpool. cbn in Hpool.
  destruct Hinv as [[Hp _] (g & Hg & _) _ _].
  unfold mineBlock.
  destruct (last (chain (submit_all txs s))) as [prev|] eqn:Hlast.
  - cbn. eexists _, _. split; [reflexivity|]. cbn.
    split; [by rewrite chain_submit_all|].
    split; [|apply deref_alloc_new].
    rewrite deref_alloc_old by done. exact Hpool.
  - apply last_None in Hlast. rewrite Hlast in Hg. discriminate.
Qed.

(** *** The seal of a block *)

Lemma hex_encode_inj (a b : list Byte.byte) : Hex.encode a = Hex.encode b → a = b.
Proof. intros H. by rewrite <- (hex_decode_encode a), H, hex_decode_encode. Qed.

(** C3, genesis block.  The block stores the first clock reading as its
    [timestamp] and seals the second one: when scrypt tells the two
    serialisations apart, the [hash] of the genesis block is not the seal
    of the fields the block stores. *)
Theorem C3_genesis_seal_ignores_stored_timestamp (now_field now_seal : Z) :
  scrypt (stringify (block_content_json 0 (HString "0") now_field [])) "salt" 1024 8 1 32
  ≠ scrypt (stringify (block_content_json 0 (HString "0") now_seal [])) "salt" 1024 8 1 32 →
  ∃ g, chain (boot scrypt now_field now_seal) !! 0%nat = Some g ∧
       Block.timestamp g = now_field ∧
       Block.hash g = calculateHash scrypt 0 (HString "0") now_seal [] ∧
       ¬ sealed scrypt (boot scrypt now_field now_seal) g.
Proof.
  intros Hne. eexists. split; [reflexivity|]. cbn.
  split; [done|]. split; [done|].
  unfold sealed, calculateHash. cbn. intros [= Heq].
  apply hex_encode_inj in Heq. by apply Hne.
Qed.

(** The genesis block is sealed when the clock does not tick between the
    two readings. *)
Lemma genesis_sealed_same_reading (now : Z) :
  ∃ g, chain (boot scrypt now now) !! 0%nat = Some g ∧ sealed scrypt (boot scrypt now now) g.
Proof. eexists. split; reflexivity. Qed.

Lemma sealed_kept s s' b : blocks_kept s s' → b ∈ chain s → sealed scrypt s b → sealed scrypt s' b.
Proof. intros [_ Hkeep] Hb. unfold sealed. by rewrite Hkeep. Qed.

Lemma mineBlock_sealed d now s b s' :
  inv s → mineBlock scrypt d now s = Normal (b, s') →
  chain s' = chain s ++ [b] ∧ sealed scrypt s' b.
Proof.
  intros [[Hp _] _ _ _]. unfold mineBlock.
  destruct (last (chain s)) as [prev|]; [|done].
  cbn. intros [= <- <-]. split; [done|].
  unfold sealed. cbn. by rewrite deref_alloc_old.
Qed.

(** Every block that [mineBlock] appended is sealed over its own fields. *)
Lemma mined_blocks_sealed cs s s' :
  inv s → (∀ i b, chain s !! S i = Some b → sealed scrypt s b) →
  run scrypt cs s = Normal s' →
  ∀ i b, chain s' !! S i = Some b → sealed scrypt s' b.
Proof.
  revert s. induction cs as [|c cs IH]; intros s Hinv Hs; cbn.
  - by intros [= <-].
  - destruct (step scrypt c s) as [s1|] eqn:Hstep; [|done].
    apply IH; [by eapply inv_step|].
    pose proof (blocks_kept_step c s s1 Hinv Hstep) as Hkept.
    assert (Hold : ∀ i b, chain s !! S i = Some b → sealed scrypt s1 b).
    { intros i b Hb. eapply sealed_kept; [done| |by eapply Hs].
      apply list_elem_of_lookup. eauto. }
    destruct c as [a b n|d now|a b cond n now|id now]; cbn in Hstep.
    + injection Hstep as <-. exact Hold.
    + destruct (mineBlock scrypt d now s) as [[b s2]|] eqn:Hm; [|done].
      injection Hstep as <-.
      destruct (mineBlock_sealed d now s b s2 Hinv Hm) as [Hchain Hb].
      intros i x Hx. rewrite Hchain in Hx.
      apply lookup_app_Some in Hx as [Hx|[_ Hx]]; [by eapply Hold|].
      apply list_lookup_singleton_Some in Hx as [_ <-]. done.
    + injection Hstep as <-. exact Hold.
    + unfold executeContract in Hstep.
      destruct (contract_at id s) as [k|]; [|injection Hstep as <-; exact Hold].
      destruct (Contract.executed k); [injection Hstep as <-; exact Hold|].
      destruct (now <=? Contract.condition k); injection Hstep as <-; exact Hold.
Qed.

Lemma reachable_mined_blocks_sealed s i b :
  reachable scrypt s → chain s !! S i = Some b → sealed scrypt s b.
Proof.
  intros (t1 & t2 & cs & Hrun).
  eapply mined_blocks_sealed; [apply inv_boot| |exact Hrun].
  intros j x Hx. destruct j; discriminate.
Qed.

End BackendProperties.

(** ** The contract engine *)

Lemma contract_at_Some_inv id s c :
  contract_at id s = Some c → id = Z.of_nat (Z.to_nat id).
Proof. intros H. apply contract_at_Some in H as [Hpos _]. lia. Qed.

Lemma executeContract_true id now s s' :
  executeContract id now s = Normal (true, s') →
  ∃ c, contract_at id s = Some c ∧ Contract.executed c = false ∧
       now ≤ Contract.condition c ∧
       s' = mkState (push (transactions s)
                          (mkTransaction (Contract.partyA c) (Contract.partyB c)
                                         (Contract.amount c)) (arrays s))
                    (chain s) (transactions s)
                    (<[Z.to_nat id := Contract.set_executed true c]> (contracts s)).
Proof.
  unfold executeContract.
  destruct (contract_at id s) as [c|]; [|done].
  destruct (Contract.executed c) eqn:He; [done|].
  destruct (Z.leb_spec now (Contract.condition c)); [|done].
  intros [= <-]. eauto.
Qed.

(** A call that does not report success changes nothing. *)
Lemma executeContract_false id now s s' :
  executeContract id now s = Normal (false, s') → s' = s.
Proof.
  unfold executeContract.
  destruct (contract_at id s) as [c|]; [|by intros [= <-]].
  destruct (Contract.executed c); [by intros [= <-]|].
  destruct (now <=? Contract.condition c); [done|by intros [= <-]].
Qed.

Lemma executeContract_spent id now t s c :
  contract_at id s = Some c → spent t c → t ≤ now →
  executeContract id now s = Normal (false, s).
Proof.
  intros Hc [He|Hlate] Hle; unfold executeContract; rewrite Hc.
  - by rewrite He.
  - destruct (Contract.executed c); [done|].
    destruct (Z.leb_spec now (Contract.condition c)); [lia|done].
Qed.

Lemma executeContract_leaves_spent id now s r s' c :
  contract_at id s = Some c → executeContract id now s = Normal (r, s') →
  ∃ c', contract_at id s' = Some c' ∧ spent now c'.
Proof.
  intros Hc. unfold executeContract. rewrite Hc.
  destruct (Contract.executed c) eqn:He.
  { intros [= <- <-]. exists c. split; [done|]. by left. }
  destruct (Z.leb_spec now (Contract.condition c)).
  - intros [= <- <-]. exists (Contract.set_executed true c). split; [|by left].
    unfold contract_at in *. cbn. destruct (id <? 0); [done|].
    apply list_lookup_insert_eq. by eapply lookup_lt_Some.
  - intros [= <- <-]. exists c. split; [done|]. by right.
Qed.

(** What one call does to the contract at position [i]: it stays there,
    only its [executed] flag can change, only from [false] to [true], and
    only through a successful [executeContract] of that very id. *)
Lemma step_contract scrypt k s s' i c :
  step scrypt k s = Normal s' → contracts s !! i = Some c →
  ∃ c', contracts s' !! i = Some c' ∧
        (c' = c ∨
         (c' = Contract.set_executed true c ∧ Contract.executed c = false ∧
          ∃ now, k = ExecuteContract (Z.of_nat i) now ∧
                 executeContract (Z.of_nat i) now s = Normal (true, s'))).
Proof.
  intros Hstep Hc. destruct k as [a b n|d now|a b cond n now|id now]; cbn in Hstep.
  - injection Hstep as <-. cbn. eauto.
  - unfold mineBlock in Hstep. destruct (last (chain s)); [|done].
    cbn in Hstep. injection Hstep as <-. cbn. eauto.
  - injection Hstep as <-. cbn. exists c. split; [|by left].
    by apply lookup_app_l_Some.
  - destruct (executeContract id now s) as [[[] s1]|] eqn:He; [| |done];
      injection Hstep as <-.
    + destruct (executeContract_true _ _ _ _ He) as (k & Hk & Hex & Hle & ->).
      pose proof (contract_at_Some_inv _ _ _ Hk) as Hid.
      apply contract_at_Some in Hk as [_ Hk]. cbn.
      destruct (decide (Z.to_nat id = i)) as [Hi|Hne].
      * subst i. assert (k = c) as -> by congruence.
        exists (Contract.set_executed true c).
        split; [apply list_lookup_insert_eq; by eapply lookup_lt_Some|].
        right. split; [done|]. split; [done|].
        exists now. rewrite <- Hid. by rewrite He.
      * exists c. split; [by rewrite list_lookup_insert_ne|by left].
    + apply executeContract_false in He as ->. eauto.
Qed.

Lemma step_keeps_spent scrypt k s s' id c t :
  step scrypt k s = Normal s' → contract_at id s = Some c → spent t c →
  ∃ c', contract_at id s' = Some c' ∧ spent t c'.
Proof.
  intros Hstep Hc Hsp.
  pose proof (contract_at_Some_inv _ _ _ Hc) as Hid.
  rewrite Hid, contract_at_of_nat in Hc.
  destruct (step_contract scrypt k s s' _ c Hstep Hc) as (c' & Hc' & Hcase).
  exists c'. rewrite Hid, contract_at_of_nat. split; [done|].
  destruct Hcase as [->|(-> & _)]; [done|].
  destruct Hsp as [He|Hlate]; [by left|by right].
Qed.

Lemma run_keeps_spent scrypt ks s s' id c t :
  run scrypt ks s = Normal s' → contract_at id s = Some c → spent t c →
  ∃ c', contract_at id s' = Some c' ∧ spent t c'.
Proof.
  revert s c. induction ks as [|k ks IH]; intros s c; cbn.
  - intros [= <-]. eauto.
  - destruct (step scrypt k s) as [s1|] eqn:Hstep; [|done].
    intros Hrun Hc Hsp.
    destruct (step_keeps_spent scrypt k s s1 id c t Hstep Hc Hsp) as (c1 & Hc1 & Hsp1).
    by eapply IH.
Qed.

Lemma contract_at_member scrypt s c :
  reachable scrypt s → c ∈ contracts s → contract_at (Contract.id c) s = Some c.
Proof.
  intros Hreach Hc. apply reachable_inv in Hreach as [_ _ _ Hids].
  apply list_elem_of_lookup in Hc as [i Hi].
  rewrite (Hids i c Hi). by rewrite contract_at_of_nat.
Qed.

(** C4. For a contract of a reachable state that is not executed yet:
    called no later than the deadline, [executeContract] returns [true],
    appends the transfer to the pool and sets the flag; called later it
    returns [false] and changes nothing; it returns [true] exactly when
    [now <= condition]. *)
Theorem C4_execution_gated_by_deadline scrypt (s : State) (c : Contract.t) (now : Z) :
  reachable scrypt s → c ∈ contracts s → Contract.executed c = false →
  (now ≤ Contract.condition c →
   ∃ s', executeContract (Contract.id c) now s = Normal (true, s') ∧
         pool s' = pool s ++ [mkTransaction (Contract.partyA c) (Contract.partyB c)
                                            (Contract.amount c)] ∧
         contract_at (Contract.id c) s' = Some (Contract.set_executed true c)) ∧
  (Contract.condition c < now →
   executeContract (Contract.id c) now s = Normal (false, s) ∧
   contract_at (Contract.id c) s = Some c) ∧
  (∀ r s', executeContract (Contract.id c) now s = Normal (r, s') →
           (r = true ↔ now ≤ Contract.condition c)).
Proof.
  intros Hreach Hc He.
  pose proof (contract_at_member scrypt s c Hreach Hc) as Hat.
  pose proof (reachable_inv scrypt s Hreach) as Hinv.
  unfold executeContract. rewrite Hat, He.
  destruct (Z.leb_spec now (Contract.condition c)) as [Hle|Hgt].
  - split; [|split]; [|lia|].
    + intros _. eexists. split; [reflexivity|]. split.
      * apply (pool_createTransaction (Contract.partyA c) (Contract.partyB c)
                 (Contract.amount c) s Hinv).
      * apply contract_at_Some in Hat as [Hpos Hat].
        unfold contract_at. destruct (Z.ltb_spec (Contract.id c) 0); [lia|]. cbn.
        apply list_lookup_insert_eq. by eapply lookup_lt_Some.
    + intros r s' [= <- <-]. done.
  - split; [|split]; [lia|done|].
    intros r s' [= <- <-]. split; [done|lia].
Qed.

(** C5, as the code has it.  An id outside the contract array gets the
    plain [false] of an executed contract: the call returns normally,
    nothing is thrown and the state is unchanged. *)
Theorem C5_unknown_id_returns_false (s : State) (id now : Z) :
  id < 0 ∨ Z.of_nat (length (contracts s)) ≤ id →
  executeContract id now s = Normal (false, s) ∧
  ∀ e, executeContract id now s ≠ Throw e.
Proof.
  intros Hout.
  assert (contract_at id s = None) as Hnone.
  { unfold contract_at. destruct (Z.ltb_spec id 0); [done|].
    apply lookup_ge_None. lia. }
  unfold executeContract. rewrite Hnone. done.
Qed.

Lemma run_keeps_executed scrypt ks s s' i c :
  run scrypt ks s = Normal s' → contracts s !! i = Some c →
  Contract.executed c = true → contracts s' !! i = Some c.
Proof.
  revert s. induction ks as [|k ks IH]; intros s; cbn.
  - by intros [= <-].
  - destruct (step scrypt k s) as [s1|] eqn:Hstep; [|done].
    intros Hrun Hc He. apply (IH s1 Hrun); [|done].
    destruct (step_contract scrypt k s s1 i c Hstep Hc) as (c' & Hc' & [->|(_ & Hf & _)]);
      [done|congruence].
Qed.

(** C6. With [t1 <= t2] the clock readings of a first and a later call:
    - one call leaves every contract in place and can change its
      [executed] flag only from [false] to [true], and only when the call
      is a successful [executeContract] of that contract;
    - an executed contract is never changed again by any calls;
    - a second [executeContract id] right after a first one returns
      [false] and leaves the state as the first call left it;
    - for an existing contract the same holds with any calls in between. *)
Theorem C6_executed_flag_is_one_way scrypt (s : State) (id t1 t2 : Z) :
  t1 ≤ t2 →
  (∀ k s' i c, step scrypt k s = Normal s' → contracts s !! i = Some c →
     ∃ c', contracts s' !! i = Some c' ∧
           (Contract.executed c = true → Contract.executed c' = true) ∧
           (Contract.executed c = false → Contract.executed c' = true →
            ∃ now, k = ExecuteContract (Z.of_nat i) now ∧
                   executeContract (Z.of_nat i) now s = Normal (true, s'))) ∧
  (∀ ks s' i c, run scrypt ks s = Normal s' → contracts s !! i = Some c →
     Contract.executed c = true → contracts s' !! i = Some c) ∧
  (∀ r1 s1, executeContract id t1 s = Normal (r1, s1) →
     executeContract id t2 s1 = Normal (false, s1)) ∧
  (∀ c r1 s1 between s2, contract_at id s = Some c →
     executeContract id t1 s = Normal (r1, s1) →
     run scrypt between s1 = Normal s2 →
     executeContract id t2 s2 = Normal (false, s2)).
Proof.
  intros Hmono. repeat split.
  - intros k s' i c Hstep Hc.
    destruct (step_contract scrypt k s s' i c Hstep Hc) as (c' & Hc' & Hcase).
    exists c'. split; [done|].
    destruct Hcase as [->|(-> & Hf & Hcall)]; split; try done; congruence.
  - intros ks s' i c. apply run_keeps_executed.
  - intros r1 s1 Hfirst.
    destruct (contract_at id s) as [c|] eqn:Hc.
    + destruct (executeContract_leaves_spent id t1 s r1 s1 c Hc Hfirst) as (c1 & Hc1 & Hsp).
      by eapply executeContract_spent.
    + unfold executeContract in Hfirst. rewrite Hc in Hfirst.
      injection Hfirst as <- <-. unfold executeContract. by rewrite Hc.
  - intros c r1 s1 between s2 Hc Hfirst Hrun.
    destruct (executeContract_leaves_spent id t1 s r1 s1 c Hc Hfirst) as (c1 & Hc1 & Hsp).
    destruct (run_keeps_spent scrypt between s1 s2 id c1 t1 Hrun Hc1 Hsp) as (c2 & Hc2 & Hsp2).
    by eapply executeContract_spent.
Qed.

(** C7. A call of [executeContract] that does not succeed (it does not
    return [true]) has returned [false], thrown nothing and left the whole
    state as it was: the pool and every contract. *)
Theorem C7_unsuccessful_execution_changes_nothing (s : State) (id now : Z) :
  (∀ s', executeContract id now s ≠ Normal (true, s')) →
  executeContract id now s = Normal (false, s).
Proof.
  intros Hfail. destruct (executeContract_returns id now s) as (r & s' & Hcall).
  destruct r; [by destruct (Hfail s')|].
  by rewrite Hcall, (executeContract_false id now s s' Hcall).
Qed.

Lemma executeContract_never_throws (s : State) (id now : Z) (e : jserror) :
  executeContract id now s ≠ Throw e.
Proof.
  destruct (executeContract_returns id now s) as (r & s' & ->). done.
Qed.

(** C8. After initialisation and any calls, [createContract] returns a
    contract that carries the arguments, [executed = false] and the number
    of contracts created so far as its id, and appends it; the ids of the
    contracts are then their positions, so they increase strictly in
    creation order and no two are equal. *)
Theorem C8_createContract_sequential_ids scrypt (now_field now_seal : Z) (cs : list call)
    (a b : string) (cond n now : Z) :
  ∃ s c s',
    run scrypt cs (boot scrypt now_field now_seal) = Normal s ∧
    createContract a b cond n now s = (c, s') ∧
    c = Contract.mk (Z.of_nat (length (contracts s))) a b cond n now false ∧
    contracts s' = contracts s ++ [c] ∧
    (∀ i x, contracts s' !! i = Some x → Contract.id x = Z.of_nat i) ∧
    (∀ i j x y, contracts s' !! i = Some x → contracts s' !! j = Some y →
                (i < j)%nat → Contract.id x < Contract.id y) ∧
    (∀ i j x y, contracts s' !! i = Some x → contracts s' !! j = Some y →
                i ≠ j → Contract.id x ≠ Contract.id y).
Proof.
  destruct (run_returns scrypt cs _ (inv_boot scrypt now_field now_seal)) as (s & Hs & Hinv).
  pose proof (inv_createContract a b cond n now s Hinv) as [_ _ _ Hids].
  eexists s, _, _. split; [done|]. split; [reflexivity|].
  split; [done|]. split; [done|]. cbn in Hids |- *.
  split; [exact Hids|]. split.
  - intros i j x y Hx Hy Hlt. rewrite (Hids i x Hx), (Hids j y Hy). lia.
  - intros i j x y Hx Hy Hne. rewrite (Hids i x Hx), (Hids j y Hy). lia.
Qed.

(** ** The chat relay *)

Lemma broadcast_lookup (message : string) (c : Chat.t) (k : nat) :
  Chat.clients (Chat.broadcast message c) !! k =
  (λ client, if decide (Chat.state client = Chat.OPEN)
             then Chat.send (Chat.event message) client else client)
  <$> Chat.clients c !! k.
Proof. unfold Chat.broadcast. cbn. apply lookup_fmap. Qed.

Lemma broadcast_users (message : string) (c : Chat.t) :
  Chat.users (Chat.broadcast message c) = Chat.users c.
Proof. reflexivity. Qed.

Lemma broadcast_dom (message : string) (c : Chat.t) :
  dom (Chat.clients (Chat.broadcast message c)) = dom (Chat.clients c).
Proof. unfold Chat.broadcast. cbn. apply dom_fmap_L. Qed.

(** The frame that [broadcast] sends is the JSON object with the fields
    [type] and [content], the latter holding the message. *)
Lemma event_shape (message : string) :
  Chat.event message =
  "{" +:+ quote "type" +:+ ":" +:+ quote "message" +:+ ","
      +:+ quote "content" +:+ ":" +:+ quote message +:+ "}".
Proof. reflexivity. Qed.

Lemma map_set_keeps (k : string) (v : nat) (m : list (string * nat)) (k' : string) :
  k' ∈ m.*1 → k' ∈ (Chat.map_set k v m).*1.
Proof.
  induction m as [|[k0 v0] m IH]; cbn; [by intros ?%elem_of_nil|].
  intros Hin. destruct (decide (k = k0)) as [->|Hne]; cbn; [done|].
  apply elem_of_cons in Hin as [->|Hin]; [by left|]. right. by apply IH.
Qed.

(** The ['message'] handler removes no nickname from the registry. *)
Lemma on_message_keeps_users (ws : nat) (d : Chat.data) (c : Chat.t) (nickname : string) :
  nickname ∈ (Chat.users c).*1 → nickname ∈ (Chat.users (Chat.on_message ws d c)).*1.
Proof.
  destruct d as [nick|nick content|]; cbn; [|done..].
  apply map_set_keeps.
Qed.

Lemma string_append_assoc (a b c : string) : (a +:+ b) +:+ c = a +:+ (b +:+ c).
Proof.
  induction a as [|x a IH]; [done|].
  change (String x ((a +:+ b) +:+ c) = String x (a +:+ (b +:+ c))).
  by rewrite IH.
Qed.

Lemma unescape_head_escape_char (c : ascii) (rest : string) :
  unescape_head (escape_char c +:+ rest) = Some (c, rest).
Proof. destruct c as [[] [] [] [] [] [] [] []]; reflexivity. Qed.

(** The escaped text determines the string: [escape] is injective. *)
Lemma escape_inj (s1 s2 : string) : escape s1 = escape s2 → s1 = s2.
Proof.
  revert s2. induction s1 as [|c1 s1 IH]; intros [|c2 s2] Heq; cbn in Heq.
  - done.
  - apply (f_equal unescape_head) in Heq.
    rewrite unescape_head_escape_char in Heq. discriminate.
  - apply (f_equal unescape_head) in Heq.
    rewrite unescape_head_escape_char in Heq. discriminate.
  - apply (f_equal unescape_head) in Heq.
    rewrite !unescape_head_escape_char in Heq.
    injection Heq as -> Hrest. by rewrite (IH s2 Hrest).
Qed.

(** The frame of a broadcast, character by character: the JSON object
    text with the fields [type] and [content], the message between the
    quotes of [content] in its escaped form. *)
Lemma event_text (message : string) :
  Chat.event message =
  "{" +:+ String "034" ("type" +:+ String "034" (":" +:+ String "034" ("message"
      +:+ String "034" ("," +:+ String "034" ("content" +:+ String "034" (":"
      +:+ String "034" (escape message +:+ String "034" "}"))))))).
Proof.
  assert (quote message +:+ "}" = String "034" (escape message +:+ String "034" "}"))
    as Hlast.
  { unfold quote.
    change (String dquote ((escape message +:+ String dquote EmptyString) +:+ "}")
            = String "034" (escape message +:+ String "034" "}")).
    by rewrite string_append_assoc. }
  rewrite event_shape, Hlast. reflexivity.
Qed.

(** C9. Handling a chat message [(nickname, content)] leaves the registry
    and the set of connections as they are.  Every connection that is open
    is handed exactly one more frame, written out here character by
    character: the JSON object text whose [type] is [message] and whose
    [content] is the JSON string of [nickname ++ ": " ++ content]; a
    connection that is not open is handed nothing.  That text is what
    [JSON.stringify] gives for the object with these two fields, and the
    escaped text between the quotes determines the formatted string.  No
    broadcast changes the registry. *)
Theorem C9_message_reaches_open_connections_once
    (c : Chat.t) (ws : nat) (nickname content : string) :
  Chat.users (Chat.on_message ws (Chat.Message nickname content) c) = Chat.users c ∧
  dom (Chat.clients (Chat.on_message ws (Chat.Message nickname content) c))
  = dom (Chat.clients c) ∧
  (∀ k client, Chat.clients c !! k = Some client →
    ∃ client',
      Chat.clients (Chat.on_message ws (Chat.Message nickname content) c) !! k
      = Some client' ∧
      Chat.state client' = Chat.state client ∧
      Chat.sent client' =
        if decide (Chat.state client = Chat.OPEN)
        then Chat.sent client ++
             [ "{" +:+ String "034" ("type" +:+ String "034" (":" +:+ String "034" ("message"
               +:+ String "034" ("," +:+ String "034" ("content" +:+ String "034" (":"
               +:+ String "034" (Json.escape (nickname +:+ ": " +:+ content)
               +:+ String "034" "}"))))))) ]
        else Chat.sent client) ∧
  "{" +:+ String "034" ("type" +:+ String "034" (":" +:+ String "034" ("message"
      +:+ String "034" ("," +:+ String "034" ("content" +:+ String "034" (":"
      +:+ String "034" (Json.escape (nickname +:+ ": " +:+ content)
      +:+ String "034" "}")))))))
  = Json.stringify (JObj [("type", JStr "message");
                          ("content", JStr (nickname +:+ ": " +:+ content))]) ∧
  (∀ s, Json.escape s = Json.escape (nickname +:+ ": " +:+ content) →
        s = nickname +:+ ": " +:+ content) ∧
  (∀ message, Chat.users (Chat.broadcast message c) = Chat.users c).
Proof.
  cbn [Chat.on_message]. split; [apply broadcast_users|].
  split; [apply broadcast_dom|]. split; [|split; [|split; [|done]]].
  - intros k client Hk. rewrite broadcast_lookup, Hk. cbn [fmap option_fmap option_map].
    eexists. split; [reflexivity|].
    destruct (decide (Chat.state client = Chat.OPEN)); [|done].
    split; [done|]. unfold Chat.send. cbn [Chat.sent].
    by rewrite event_text.
  - symmetry. apply (event_text (nickname +:+ ": " +:+ content)).
  - intros s. apply escape_inj.
Qed.

(** The frame for alice saying hi, and a message with a quote and a line
    break in it. *)
Example frame_of_alice_hi :
  Chat.event ("alice" +:+ ": " +:+ "hi")
  = "{" +:+ String "034" ("type" +:+ String "034" (":" +:+ String "034" ("message"
        +:+ String "034" ("," +:+ String "034" ("content" +:+ String "034" (":"
        +:+ String "034" ("alice: hi" +:+ String "034" "}")))))))
  ∧ Json.escape ("say " +:+ String "034" ("hi" +:+ String "010" EmptyString))
    = "say \" +:+ String "034" "hi\n".
Proof. split; reflexivity. Qed.

(** Two open connections and a closed one; alice and bob log in and alice
    says hi: each open connection got the two join notices and then the
    message, once; the closed one got nothing and is still there. *)
Example alice_says_hi :
  Chat.sent <$>
    Chat.clients
      (Chat.on_message 1 (Chat.Message "alice" "hi")
         (Chat.on_message 2 (Chat.Login "bob")
            (Chat.on_message 1 (Chat.Login "alice")
               (Chat.mk {[ 1%nat := Chat.mkSocket Chat.OPEN [];
                           2%nat := Chat.mkSocket Chat.OPEN [];
                           3%nat := Chat.mkSocket Chat.CLOSED [] ]} []))))
  = {[ 1%nat := [Chat.event "alice si è connesso!"; Chat.event "bob si è connesso!";
                 Chat.event "alice: hi"];
       2%nat := [Chat.event "alice si è connesso!"; Chat.event "bob si è connesso!";
                 Chat.event "alice: hi"];
       3%nat := [] ]}.
Proof. vm_compute. reflexivity. Qed.

(** ** The encryption envelope *)

Section CryptoProperties.

Variable crypto_secretbox_easy : string -> list Byte.byte -> list Byte.byte -> list Byte.byte.
Variable crypto_secretbox_open_easy :
  list Byte.byte -> list Byte.byte -> list Byte.byte -> option (list Byte.byte).

(** libsodium's contract: a box opens under the key and nonce it was made
    with and gives back the bytes of the message. *)
Hypothesis secretbox_opens :
  ∀ (m : string) (n k : list Byte.byte),
    length k = crypto_secretbox_KEYBYTES → length n = crypto_secretbox_NONCEBYTES →
    crypto_secretbox_open_easy (crypto_secretbox_easy m n k) n k
    = Some (list_byte_of_string m).

(** C10. Decrypting the ciphertext of an envelope with the nonce and the
    key found in the same envelope returns the encrypted string. *)
Theorem C10_envelope_round_trip (data : string) (rnd_key rnd_nonce : list Byte.byte) :
  length rnd_key = crypto_secretbox_KEYBYTES →
  length rnd_nonce = crypto_secretbox_NONCEBYTES →
  decrypt crypto_secretbox_open_easy
          (ciphertext (encrypt crypto_secretbox_easy rnd_key rnd_nonce data))
          (nonce (encrypt crypto_secretbox_easy rnd_key rnd_nonce data))
          (key (encrypt crypto_secretbox_easy rnd_key rnd_nonce data))
  = Normal data.
Proof.
  intros Hk Hn. unfold decrypt, encrypt. cbn.
  rewrite !hex_decode_encode, secretbox_opens by done.
  by rewrite string_of_list_byte_of_string.
Qed.

End CryptoProperties.

(** ** The theorems at concrete inputs *)

Lemma scenario_reachable : reachable sample_scrypt scenario.
Proof. exists 1000, 1000, [CreateContract "A" "B" 2000 50 1000]. reflexivity. Qed.

Lemma C2_sealed_block_holds_submissions_witness :
  pool (boot sample_scrypt 1000 1000) = [] ∧
  ∃ b s',
    mineBlock sample_scrypt 1 1100
      (submit_all [mkTransaction "alice" "bob" 5; mkTransaction "bob" "carol" (-3)]
                  (boot sample_scrypt 1000 1000))
    = Normal (b, s') ∧
    chain s' = chain (boot sample_scrypt 1000 1000) ++ [b] ∧
    deref (Block.transactions b) (arrays s')
    = [mkTransaction "alice" "bob" 5; mkTransaction "bob" "carol" (-3)] ∧
    pool s' = [].
Proof.
  split; [reflexivity|].
  apply (C2_sealed_block_holds_submissions sample_scrypt (boot sample_scrypt 1000 1000)).
  - exists 1000, 1000, []. reflexivity.
  - reflexivity.
Defined.

Lemma C3_genesis_seal_ignores_stored_timestamp_witness :
  ∃ g, chain (boot sample_scrypt 1000 1001) !! 0%nat = Some g ∧
       Block.timestamp g = 1000 ∧
       Block.hash g = calculateHash sample_scrypt 0 (HString "0") 1001 [] ∧
       ¬ sealed sample_scrypt (boot sample_scrypt 1000 1001) g.
Proof.
  apply (C3_genesis_seal_ignores_stored_timestamp sample_scrypt 1000 1001).
  vm_compute. discriminate.
Defined.

Lemma C4_execution_gated_by_deadline_witness :
  ∃ s', executeContract 0 1500 scenario = Normal (true, s') ∧
        pool s' = [mkTransaction "A" "B" 50] ∧
        contract_at 0 s' = Some (Contract.mk 0 "A" "B" 2000 50 1000 true).
Proof.
  destruct (C4_execution_gated_by_deadline sample_scrypt scenario
              (Contract.mk 0 "A" "B" 2000 50 1000 false) 1500) as [Hbefore _].
  - exact scenario_reachable.
  - apply list_elem_of_lookup. exists 0%nat. reflexivity.
  - reflexivity.
  - apply Hbefore. cbn. lia.
Defined.

Lemma C5_unknown_id_returns_false_witness :
  executeContract 7 1500 scenario = Normal (false, scenario) ∧
  ∀ e, executeContract 7 1500 scenario ≠ Throw e.
Proof.
  apply (C5_unknown_id_returns_false scenario 7 1500).
  right. cbn. lia.
Defined.

(** C5 as the specification words it, refuted: asking for contract 7
    when there is one contract returns [false] and throws nothing. *)
Lemma C5_unknown_id_not_an_error :
  contract_at 7 scenario = None ∧
  executeContract 7 1500 scenario = Normal (false, scenario) ∧
  ¬ ∃ e, executeContract 7 1500 scenario = Throw e.
Proof.
  split; [reflexivity|]. split; [reflexivity|].
  intros [e He]. discriminate He.
Qed.

Lemma C6_executed_flag_is_one_way_witness :
  ∃ s1, executeContract 0 1500 scenario = Normal (true, s1) ∧
        executeContract 0 1600 s1 = Normal (false, s1).
Proof.
  eexists. split; [reflexivity|].
  destruct (C6_executed_flag_is_one_way sample_scrypt scenario 0 1500 1600)
    as (_ & _ & Htwice & _).
  - lia.
  - apply Htwice with (r1 := true). reflexivity.
Defined.

Lemma C7_unsuccessful_execution_changes_nothing_witness :
  executeContract 0 2500 scenario = Normal (false, scenario).
Proof.
  apply (C7_unsuccessful_execution_changes_nothing scenario 0 2500).
  intros s'. vm_compute. discriminate.
Defined.

Lemma sample_secretbox_opens (m : string) (n k : list Byte.byte) :
  length k = crypto_secretbox_KEYBYTES → length n = crypto_secretbox_NONCEBYTES →
  sample_secretbox_open_easy (sample_secretbox_easy m n k) n k
  = Some (list_byte_of_string m).
Proof.
  intros _ _. unfold sample_secretbox_open_easy, sample_secretbox_easy.
  rewrite app_assoc, <- length_app, take_app_length, drop_app_length.
  by rewrite decide_True.
Qed.

Lemma C10_envelope_round_trip_witness :
  decrypt sample_secretbox_open_easy
    (ciphertext (encrypt sample_secretbox_easy (replicate 32 Byte.x2a)
                         (replicate 24 Byte.x07) "hi"))
    (nonce (encrypt sample_secretbox_easy (replicate 32 Byte.x2a)
                    (replicate 24 Byte.x07) "hi"))
    (key (encrypt sample_secretbox_easy (replicate 32 Byte.x2a)
                  (replicate 24 Byte.x07) "hi"))
  = Normal "hi".
Proof.
  apply (C10_envelope_round_trip sample_secretbox_easy sample_secretbox_open_easy
           sample_secretbox_opens "hi" (replicate 32 Byte.x2a) (replicate 24 Byte.x07));
    reflexivity.
Defined.

(** The envelope does not open under another key: the sample box refuses. *)
Example decrypt_other_key :
  decrypt sample_secretbox_open_easy
    (ciphertext (encrypt sample_secretbox_easy (replicate 32 Byte.x2a)
                         (replicate 24 Byte.x07) "hi"))
    (nonce (encrypt sample_secretbox_easy (replicate 32 Byte.x2a)
                    (replicate 24 Byte.x07) "hi"))
    (Hex.encode (replicate 32 Byte.x00))
  = Throw SodiumError.
Proof. vm_compute. reflexivity. Qed.

(** The scenario of the specification: contract [(A, B, 2000, 50)] made at
    1000; executed at 1500 it posts [(A, B, 50)]; at 1600 it is refused and
    the pool holds the one transaction. *)
Example scenario_trace :
  ∃ s1, executeContract 0 1500 scenario = Normal (true, s1) ∧
        pool s1 = [mkTransaction "A" "B" 50] ∧
        executeContract 0 1600 s1 = Normal (false, s1).
Proof. eexists. repeat split. Qed.

(** * Further properties of the backend *)

(** ** Ledger accounting *)

Lemma block_transactions_kept s s' :
  blocks_kept s s' → block_transactions s' <$> chain s = block_transactions s <$> chain s.
Proof.
  intros [_ Hkeep]. apply Forall_fmap_ext, Forall_forall. intros b Hb.
  by apply Hkeep.
Qed.

Lemma ledger_contracts a ch t cs cs' :
  ledger (mkState a ch t cs) = ledger (mkState a ch t cs').
Proof. reflexivity. Qed.

Lemma filter_executed_insert (l : list Contract.t) (i : nat) (c : Contract.t) :
  l !! i = Some c → Contract.executed c = false →
  length (List.filter Contract.executed (<[i := Contract.set_executed true c]> l))
  = S (length (List.filter Contract.executed l)).
Proof.
  revert i. induction l as [|a l IH]; intros i Hi He; [done|].
  destruct i as [|i]; cbn in Hi.
  - injection Hi as ->. cbn. by rewrite He.
  - change (<[S i := Contract.set_executed true c]> (a :: l))
      with (a :: <[i := Contract.set_executed true c]> l).
    cbn [List.filter]. destruct (Contract.executed a); cbn [length];
      by rewrite (IH i Hi He).
Qed.

Lemma filter_executed_snoc (l : list Contract.t) (c : Contract.t) :
  Contract.executed c = false →
  List.filter Contract.executed (l ++ [c]) = List.filter Contract.executed l.
Proof.
  intros He. rewrite List.filter_app. cbn. rewrite He. apply app_nil_r.
Qed.

Section LedgerProperties.

Variable scrypt : string -> string -> Z -> Z -> Z -> Z -> list Byte.byte.

Lemma ledger_createTransaction a b n s :
  inv s → ledger (createTransaction a b n s) = ledger s ++ [mkTransaction a b n].
Proof.
  intros Hinv. unfold ledger.
  change (chain (createTransaction a b n s)) with (chain s).
  rewrite (block_transactions_kept s _ (blocks_kept_createTransaction a b n s Hinv)).
  rewrite pool_createTransaction by done. by rewrite app_assoc.
Qed.

Lemma ledger_mineBlock d now s b s' :
  inv s → mineBlock scrypt d now s = Normal (b, s') → ledger s' = ledger s.
Proof.
  intros Hinv Hm.
  pose proof (blocks_kept_mineBlock scrypt d now s b s' Hinv Hm) as Hkept.
  destruct Hinv as [[Hp _] _ _ _]. unfold mineBlock in Hm.
  destruct (last (chain s)) as [prev|]; [|done].
  cbn in Hm. injection Hm as <- <-. unfold ledger in *. cbn [chain] in *.
  rewrite fmap_app, concat_app, (block_transactions_kept _ _ Hkept). cbn.
  unfold block_transactions, pool. cbn.
  rewrite deref_alloc_old, deref_alloc_new by done.
  by rewrite !app_nil_r.
Qed.

Lemma ledger_step c s s' :
  inv s → step scrypt c s = Normal s' → ledger s' = ledger s ++ posted c s.
Proof.
  intros Hinv. destruct c as [a b n|d now|a b cond n now|id now]; cbn.
  - intros [= <-]. by apply ledger_createTransaction.
  - destruct (mineBlock scrypt d now s) as [[b s1]|] eqn:Hm; [|done].
    intros [= <-]. rewrite app_nil_r. by eapply ledger_mineBlock.
  - intros [= <-]. by rewrite app_nil_r.
  - destruct (executeContract id now s) as [[[] s1]|] eqn:He; [| |done]; intros [= <-].
    + destruct (executeContract_true _ _ _ _ He) as (k & Hk & _ & _ & ->).
      rewrite Hk.
      apply (ledger_createTransaction (Contract.partyA k) (Contract.partyB k)
               (Contract.amount k) s Hinv).
    + apply executeContract_false in He as ->.
      destruct (contract_at id s); by rewrite app_nil_r.
Qed.

Lemma ledger_run cs s s' :
  inv s → run scrypt cs s = Normal s' → ledger s' = ledger s ++ posted_by scrypt cs s.
Proof.
  revert s. induction cs as [|c cs IH]; intros s Hinv; cbn.
  - intros [= <-]. by rewrite app_nil_r.
  - destruct (step scrypt c s) as [s1|] eqn:Hstep; [|done]. intros Hrun.
    rewrite (IH s1) by (by eapply inv_step || done).
    rewrite (ledger_step c s s1) by done. by rewrite app_assoc.
Qed.

(** X1. After initialisation and any calls, the [index] of every block is
    its position in the chain, and the chain has one block more than the
    number of [mineBlock] calls made. *)
Theorem X1_block_index_is_position (now_field now_seal : Z) (cs : list call) :
  ∃ s, run scrypt cs (boot scrypt now_field now_seal) = Normal s ∧
       length (chain s) = S (count_calls is_MineBlock cs) ∧
       ∀ i b, chain s !! i = Some b → Block.index b = Z.of_nat i.
Proof.
  destruct (run_returns scrypt cs _ (inv_boot scrypt now_field now_seal)) as (s & Hs & _).
  exists s. split; [done|].
  cut (∀ s0, inv s0 → indexed (chain s0) → run scrypt cs s0 = Normal s →
             length (chain s) = (length (chain s0) + count_calls is_MineBlock cs)%nat ∧
             indexed (chain s)).
  { intros Hgen. apply (Hgen (boot scrypt now_field now_seal)); [apply inv_boot| |done].
    intros i b Hb. destruct i; [|done]. by injection Hb as <-. }
  clear Hs. induction cs as [|c cs IH]; intros s0 Hinv Hidx; cbn.
  - intros [= <-]. split; [unfold count_calls; cbn; lia|done].
  - destruct (step scrypt c s0) as [s1|] eqn:Hstep; [|done]. intros Hrun.
    assert (length (chain s1)
            = (length (chain s0) + if is_MineBlock c then 1 else 0)%nat
            ∧ indexed (chain s1)) as [Hlen Hidx1].
    { destruct c as [a b n|d now|a b cond n now|id now]; cbn in Hstep |- *.
      - injection Hstep as <-. cbn. split; [lia|done].
      - unfold mineBlock in Hstep. destruct (last (chain s0)); [|done].
        cbn in Hstep. injection Hstep as <-. cbn. rewrite length_app. cbn.
        split; [done|]. intros i b Hb.
        apply lookup_app_Some in Hb as [Hb|[Hge Hb]]; [by apply Hidx|].
        apply list_lookup_singleton_Some in Hb as [Hi <-]. cbn. f_equal. lia.
      - injection Hstep as <-. cbn. split; [lia|done].
      - destruct (executeContract id now s0) as [[r s2]|] eqn:He; [|done].
        injection Hstep as <-.
        destruct (blocks_kept_executeContract id now s0 r s2 Hinv He) as [Hpre _].
        assert (chain s2 = chain s0) as ->.
        { unfold executeContract in He.
          destruct (contract_at id s0) as [k|]; [|by injection He as <- <-].
          destruct (Contract.executed k); [by injection He as <- <-|].
          destruct (now <=? Contract.condition k); by injection He as <- <-. }
        split; [lia|done]. }
    destruct (IH s1 (inv_step scrypt c s0 s1 Hinv Hstep) Hidx1 Hrun) as [Hl Hi].
    split; [|done]. rewrite Hl, Hlen. unfold count_calls. cbn.
    destruct (is_MineBlock c); cbn; lia.
Qed.

(** X2. After initialisation and any calls, the transactions of the
    blocks in chain order followed by the pool are exactly the
    transactions handed to [createTransaction], directly or by a
    successful [executeContract], in the order of the calls: mining moves
    the pool into a block and loses, repeats or reorders nothing. *)
Theorem X2_ledger_holds_every_posted_transaction (now_field now_seal : Z) (cs : list call) :
  ∃ s, run scrypt cs (boot scrypt now_field now_seal) = Normal s ∧
       ledger s = posted_by scrypt cs (boot scrypt now_field now_seal).
Proof.
  destruct (run_returns scrypt cs _ (inv_boot scrypt now_field now_seal)) as (s & Hs & _).
  exists s. split; [done|].
  by rewrite (ledger_run cs _ s (inv_boot scrypt now_field now_seal) Hs).
Qed.

(** X3. In every reachable state, each block that [mineBlock] appended
    has as [hash] the seal of the index, previous hash, timestamp and
    transactions that the block itself stores. *)
Theorem X3_mined_blocks_are_sealed (s : State) (i : nat) (b : Block.t) :
  reachable scrypt s → chain s !! S i = Some b →
  Block.hash b =
  calculateHash scrypt (Block.index b) (Block.previousHash b) (Block.timestamp b)
                (block_transactions s b).
Proof. intros Hreach Hb. by apply (reachable_mined_blocks_sealed scrypt s i b). Qed.

Lemma reachable_genesis s :
  reachable scrypt s →
  ∃ g h, chain s !! 0%nat = Some g ∧ Block.hash g = HPromise h.
Proof.
  intros (t1 & t2 & cs & Hrun).
  destruct (blocks_kept_run scrypt cs _ s (inv_boot scrypt t1 t2) Hrun) as [Hpre _].
  exists (Block.mk 0 (HString "0") t1 1%nat (calculateHash scrypt 0 (HString "0") t2 [])).
  eexists. split; [|reflexivity].
  eapply prefix_lookup_Some; [|exact Hpre]. reflexivity.
Qed.

Lemma reachable_hash_promise s i b :
  reachable scrypt s → chain s !! i = Some b → ∃ h, Block.hash b = HPromise h.
Proof.
  intros Hreach Hb. destruct i as [|i].
  - destruct (reachable_genesis s Hreach) as (g & h & Hg & Hh).
    exists h. congruence.
  - rewrite (reachable_mined_blocks_sealed scrypt s i b Hreach Hb).
    unfold calculateHash. eauto.
Qed.

(** X4. The seal does not cover the previous hash.  In every reachable
    state the [previousHash] of a mined block is a promise, which
    [JSON.stringify] prints as an empty object: the block's [hash] is the
    seal computed with any other promise in place of [previousHash]. *)
Theorem X4_seal_ignores_previous_hash (s : State) (i : nat) (b : Block.t) :
  reachable scrypt s → chain s !! S i = Some b →
  (∃ h, Block.previousHash b = HPromise h) ∧
  ∀ h', Block.hash b =
        calculateHash scrypt (Block.index b) (HPromise h') (Block.timestamp b)
                      (block_transactions s b).
Proof.
  intros Hreach Hb.
  destruct (lookup_lt_is_Some_2 (chain s) i) as [p Hp].
  { apply lookup_lt_Some in Hb. lia. }
  destruct (reachable_hash_promise s i p Hreach Hp) as [h Hh].
  pose proof (reachable_inv scrypt s Hreach) as [_ _ Hl _].
  pose proof (Hl i p b Hp Hb) as Hprev. rewrite Hh in Hprev.
  split; [eauto|]. intros h'.
  rewrite (reachable_mined_blocks_sealed scrypt s i b Hreach Hb), Hprev.
  reflexivity.
Qed.

Lemma executed_count_step c s s' :
  step scrypt c s = Normal s' →
  (executed_count s' + (if is_CreateTransaction c then 1 else 0))%nat
  = (executed_count s + length (posted c s))%nat.
Proof.
  destruct c as [a b n|d now|a b cond n now|id now]; cbn.
  - intros [= <-]. unfold executed_count. cbn. lia.
  - unfold mineBlock. destruct (last (chain s)); [|done].
    cbn. intros [= <-]. unfold executed_count. cbn. lia.
  - intros [= <-]. unfold executed_count. cbn.
    rewrite filter_executed_snoc by done. lia.
  - destruct (executeContract id now s) as [[[] s1]|] eqn:He; [| |done]; intros [= <-].
    + destruct (executeContract_true _ _ _ _ He) as (k & Hk & Hex & _ & ->).
      rewrite Hk. apply contract_at_Some in Hk as [_ Hk].
      unfold executed_count. cbn. rewrite (filter_executed_insert _ _ _ Hk Hex). lia.
    + apply executeContract_false in He as ->.
      destruct (contract_at id s); cbn; lia.
Qed.

(** X5. After initialisation and any calls, the ledger holds as many
    transactions as there were direct [createTransaction] calls plus
    contracts whose [executed] flag is set: every executed contract has
    posted exactly one transfer and no flag is set without one. *)
Theorem X5_one_transfer_per_executed_contract (now_field now_seal : Z) (cs : list call) :
  ∃ s, run scrypt cs (boot scrypt now_field now_seal) = Normal s ∧
       length (ledger s)
       = (count_calls is_CreateTransaction cs + executed_count s)%nat.
Proof.
  destruct (run_returns scrypt cs _ (inv_boot scrypt now_field now_seal)) as (s & Hs & _).
  exists s. split; [done|].
  cut (∀ s0, inv s0 → run scrypt cs s0 = Normal s →
             (length (ledger s) + executed_count s0)%nat
             = (length (ledger s0) + count_calls is_CreateTransaction cs
                + executed_count s)%nat).
  { intros Hgen. specialize (Hgen _ (inv_boot scrypt now_field now_seal) Hs).
    cbn in Hgen. lia. }
  clear Hs. induction cs as [|c cs IH]; intros s0 Hinv; cbn.
  - intros [= <-]. unfold count_calls. cbn. lia.
  - destruct (step scrypt c s0) as [s1|] eqn:Hstep; [|done]. intros Hrun.
    specialize (IH s1 (inv_step scrypt c s0 s1 Hinv Hstep) Hrun).
    pose proof (executed_count_step c s0 s1 Hstep) as Hcount.
    pose proof (ledger_step c s0 s1 Hinv Hstep) as Hledger.
    rewrite Hledger, length_app in IH. unfold count_calls in *. cbn.
    destruct (is_CreateTransaction c); cbn; lia.
Qed.

End LedgerProperties.

(** ** Contracts over any calls *)

Lemma same_terms_refl c : same_terms c c.
Proof. by repeat split. Qed.

Lemma same_terms_trans c1 c2 c3 : same_terms c1 c2 → same_terms c2 c3 → same_terms c1 c3.
Proof.
  intros (?&?&?&?&?&?) (?&?&?&?&?&?). repeat split; congruence.
Qed.

Lemma contracts_length_step scrypt c s s' :
  step scrypt c s = Normal s' →
  length (contracts s') = (length (contracts s) + if is_CreateContract c then 1 else 0)%nat.
Proof.
  destruct c as [a b n|d now|a b cond n now|id now]; cbn.
  - intros [= <-]. cbn. lia.
  - unfold mineBlock. destruct (last (chain s)); [|done]. cbn. intros [= <-]. cbn. lia.
  - intros [= <-]. cbn. by rewrite length_app.
  - destruct (executeContract id now s) as [[[] s1]|] eqn:He; [| |done]; intros [= <-].
    + destruct (executeContract_true _ _ _ _ He) as (k & _ & _ & _ & ->). cbn.
      rewrite length_insert. lia.
    + apply executeContract_false in He as ->. lia.
Qed.

(** X6. A contract that is executed, or whose deadline lies before [t],
    is refused for good: whatever calls are made afterwards, every
    [executeContract] on it at a time from [t] on returns [false] and
    changes nothing. *)
Theorem X6_spent_contract_stays_refused scrypt (s s2 : State) (id t t2 : Z)
    (c : Contract.t) (between : list call) :
  contract_at id s = Some c →
  Contract.executed c = true ∨ Contract.condition c < t →
  run scrypt between s = Normal s2 →
  t ≤ t2 →
  executeContract id t2 s2 = Normal (false, s2).
Proof.
  intros Hc Hsp Hrun Hle.
  destruct (run_keeps_spent scrypt between s s2 id c t Hrun Hc Hsp) as (c2 & Hc2 & Hsp2).
  by eapply executeContract_spent.
Qed.

(** X7. Calls never delete a contract nor change its terms.  Over any
    calls that return, the contract array grows by one entry per
    [createContract] call, and every contract stays at its position with
    the same id, parties, condition, amount and timestamp; a set
    [executed] flag stays set. *)
Theorem X7_contract_terms_are_permanent scrypt (cs : list call) (s s' : State) :
  run scrypt cs s = Normal s' →
  length (contracts s') = (length (contracts s) + count_calls is_CreateContract cs)%nat ∧
  ∀ i c, contracts s !! i = Some c →
         ∃ c', contracts s' !! i = Some c' ∧ same_terms c c' ∧
               (Contract.executed c = true → Contract.executed c' = true).
Proof.
  revert s. induction cs as [|k cs IH]; intros s; cbn.
  - intros [= <-]. split; [unfold count_calls; cbn; lia|].
    intros i c Hc. exists c. split; [done|]. split; [apply same_terms_refl|done].
  - destruct (step scrypt k s) as [s1|] eqn:Hstep; [|done]. intros Hrun.
    destruct (IH s1 Hrun) as [Hlen Hkeep]. split.
    + rewrite Hlen, (contracts_length_step scrypt k s s1 Hstep).
      unfold count_calls. cbn. destruct (is_CreateContract k); cbn; lia.
    + intros i c Hc.
      destruct (step_contract scrypt k s s1 i c Hstep Hc) as (c1 & Hc1 & Hcase).
      destruct (Hkeep i c1 Hc1) as (c' & Hc' & Hterms & Hflag).
      exists c'. split; [done|].
      destruct Hcase as [->|(-> & _ & _)]; [done|]. split.
      * eapply same_terms_trans; [|exact Hterms]. by repeat split.
      * intros _. by apply Hflag.
Qed.

(** ** The registry of the chat relay *)

Lemma filter_ext_in {A} (P Q : A → Prop) `{!∀ x, Decision (P x), !∀ x, Decision (Q x)}
    (l : list A) :
  (∀ x, x ∈ l → (P x ↔ Q x)) → filter P l = filter Q l.
Proof.
  induction l as [|a l IH]; intros Hiff; [done|].
  assert (filter P l = filter Q l) as Hrest.
  { apply IH. intros x Hx. apply Hiff. by right. }
  destruct (decide (P a)) as [Hp|Hp].
  - rewrite !filter_cons_True; [by rewrite Hrest|by apply Hiff; [left|]|done].
  - rewrite !filter_cons_False; [done| |done].
    intros Hq. apply Hp, Hiff; [by left|done].
Qed.

Lemma filter_all {A} (P : A → Prop) `{!∀ x, Decision (P x)} (l : list A) :
  (∀ x, x ∈ l → P x) → filter P l = l.
Proof.
  induction l as [|a l IH]; intros Hall; [done|].
  rewrite filter_cons_True by (apply Hall; by left).
  f_equal. apply IH. intros x Hx. apply Hall. by right.
Qed.

Lemma keys_filter (P : string * nat → Prop) `{!∀ x, Decision (P x)}
    (l : list (string * nat)) (k : string) :
  k ∈ (filter P l).*1 → k ∈ l.*1.
Proof.
  intros Hk. apply list_elem_of_fmap in Hk as (e & -> & He).
  apply list_elem_of_filter in He as [_ He]. by apply list_elem_of_fmap_2.
Qed.

Lemma NoDup_keys_filter (P : string * nat → Prop) `{!∀ x, Decision (P x)}
    (l : list (string * nat)) :
  NoDup l.*1 → NoDup (filter P l).*1.
Proof.
  induction l as [|a l IH]; [done|]. rewrite fmap_cons. intros [Hnotin Hnd]%NoDup_cons.
  destruct (decide (P a)).
  - rewrite filter_cons_True by done. rewrite fmap_cons. apply NoDup_cons.
    split; [|by apply IH].
    intros Hin. by apply Hnotin, (keys_filter P).
  - rewrite filter_cons_False by done. by apply IH.
Qed.

Lemma NoDup_keys_agree (l : list (string * nat)) (x y : string * nat) :
  NoDup l.*1 → x ∈ l → y ∈ l → x.1 = y.1 → x = y.
Proof.
  induction l as [|a l IH]; [by intros _ ?%elem_of_nil|].
  cbn. intros [Hnotin Hnd]%NoDup_cons Hx Hy Heq.
  apply elem_of_cons in Hx as [->|Hx]; apply elem_of_cons in Hy as [->|Hy].
  - done.
  - destruct Hnotin. rewrite Heq. by apply list_elem_of_fmap_2.
  - destruct Hnotin. rewrite <- Heq. by apply list_elem_of_fmap_2.
  - by apply IH.
Qed.

Lemma map_set_elem (k : string) (v : nat) (m : list (string * nat)) :
  (k, v) ∈ Chat.map_set k v m.
Proof.
  induction m as [|[k0 v0] m IH]; cbn; [by left|].
  destruct (decide (k = k0)); [by left|by right].
Qed.

Lemma map_set_other (k : string) (v : nat) (m : list (string * nat)) (k' : string) (w : nat) :
  k' ≠ k → (k', w) ∈ Chat.map_set k v m ↔ (k', w) ∈ m.
Proof.
  intros Hne. induction m as [|[k0 v0] m IH]; cbn.
  - rewrite list_elem_of_singleton. split; [congruence|by intros ?%elem_of_nil].
  - destruct (decide (k = k0)) as [->|Hk]; rewrite !elem_of_cons.
    + split; (intros [?|?]; [congruence|by right]).
    + by rewrite IH.
Qed.

Lemma map_set_keys (k : string) (v : nat) (m : list (string * nat)) (x : string) :
  x ∈ (Chat.map_set k v m).*1 → x = k ∨ x ∈ m.*1.
Proof.
  induction m as [|[k0 v0] m IH]; cbn.
  - intros ->%list_elem_of_singleton. by left.
  - destruct (decide (k = k0)) as [->|Hk]; cbn; rewrite !elem_of_cons.
    + intros [->|?]; [by left|]. right. by right.
    + intros [->|Hx]; [right; by left|]. destruct (IH Hx); [by left|]. right. by right.
Qed.

Lemma map_set_NoDup (k : string) (v : nat) (m : list (string * nat)) :
  NoDup m.*1 → NoDup (Chat.map_set k v m).*1.
Proof.
  induction m as [|[k0 v0] m IH]; cbn.
  - intros _. apply NoDup_singleton.
  - intros [Hnotin Hnd]%NoDup_cons.
    destruct (decide (k = k0)) as [->|Hk]; cbn; apply NoDup_cons.
    + done.
    + split; [|by apply IH]. intros Hin.
      destruct (map_set_keys k v m k0 Hin) as [->|?]; done.
Qed.

(** ** Login and close in the chat relay *)

Lemma deliver_nil (client : Chat.Socket) : deliver [] client = client.
Proof.
  unfold deliver. destruct client as [st frames]. cbn.
  case_decide; [|done]. by rewrite app_nil_r.
Qed.

Lemma deliver_app (f1 f2 : list string) (client : Chat.Socket) :
  deliver f2 (deliver f1 client) = deliver (f1 ++ f2) client.
Proof.
  unfold deliver. destruct client as [st frames]. cbn.
  destruct (decide (st = Chat.OPEN)) as [Ho|Ho]; cbn.
  - rewrite decide_True by done. by rewrite app_assoc.
  - by rewrite decide_False.
Qed.

Lemma broadcast_deliver (message : string) (c : Chat.t) :
  Chat.clients (Chat.broadcast message c) = deliver [Chat.event message] <$> Chat.clients c.
Proof. reflexivity. Qed.

Lemma on_close_fold (ws : nat) (l : list (string * nat)) (acc : Chat.t) :
  Chat.users
    (fold_left
       (λ acc entry,
          if decide (entry.2 = ws) then
            Chat.broadcast (entry.1 +:+ " si è disconnesso!")
                           (Chat.mk (Chat.clients acc) (Chat.map_delete entry.1 (Chat.users acc)))
          else acc) l acc)
  = filter (λ e, e.1 ∉ (filter (λ e, e.2 = ws) l).*1) (Chat.users acc) ∧
  Chat.clients
    (fold_left
       (λ acc entry,
          if decide (entry.2 = ws) then
            Chat.broadcast (entry.1 +:+ " si è disconnesso!")
                           (Chat.mk (Chat.clients acc) (Chat.map_delete entry.1 (Chat.users acc)))
          else acc) l acc)
  = deliver (departures ws l) <$> Chat.clients acc.
Proof.
  revert acc. induction l as [|e l IH]; intros acc.
  - cbn [fold_left]. split.
    + symmetry. apply filter_all. intros x _. apply not_elem_of_nil.
    + rewrite <- (map_fmap_id (Chat.clients acc)) at 1.
      apply map_fmap_ext. intros k client _. symmetry. apply deliver_nil.
  - cbn [fold_left]. destruct (decide (e.2 = ws)) as [He|He].
    + destruct (IH (Chat.broadcast (e.1 +:+ " si è disconnesso!")
                      (Chat.mk (Chat.clients acc) (Chat.map_delete e.1 (Chat.users acc)))))
        as [Hu Hc].
      rewrite Hu, Hc. clear Hu Hc. split.
      * cbn [Chat.users Chat.broadcast]. unfold Chat.map_delete.
        rewrite list_filter_filter. apply list_filter_iff. intros x. cbn beta.
        rewrite filter_cons_True by done. rewrite fmap_cons, not_elem_of_cons. tauto.
      * rewrite broadcast_deliver. cbn [Chat.clients].
        rewrite <- map_fmap_compose. apply map_fmap_ext. intros k client _.
        unfold compose. rewrite deliver_app. unfold departures. by rewrite filter_cons_True.
    + destruct (IH acc) as [Hu Hc]. rewrite Hu, Hc. unfold departures.
      by rewrite !filter_cons_False.
Qed.

(** X8. A login frame binds the nickname to the socket it came from: with
    the nicknames of the registry distinct, afterwards they still are, the
    nickname is bound to that socket and to no other, every other binding
    is as before, and each open connection got the join notice once. *)
Theorem X8_login_binds_nickname (c : Chat.t) (ws : nat) (nickname : string) :
  NoDup (Chat.users c).*1 →
  NoDup (Chat.users (Chat.on_message ws (Chat.Login nickname) c)).*1 ∧
  (nickname, ws) ∈ Chat.users (Chat.on_message ws (Chat.Login nickname) c) ∧
  (∀ w, (nickname, w) ∈ Chat.users (Chat.on_message ws (Chat.Login nickname) c) → w = ws) ∧
  (∀ n w, n ≠ nickname →
     ((n, w) ∈ Chat.users (Chat.on_message ws (Chat.Login nickname) c)
      ↔ (n, w) ∈ Chat.users c)) ∧
  Chat.clients (Chat.on_message ws (Chat.Login nickname) c)
  = deliver [Chat.event (nickname +:+ " si è connesso!")] <$> Chat.clients c.
Proof.
  intros Hnd. cbn [Chat.on_message Chat.broadcast Chat.users Chat.clients].
  pose proof (map_set_NoDup nickname ws (Chat.users c) Hnd) as Hnd'.
  split; [done|]. split; [apply map_set_elem|]. split; [|split].
  - intros w Hw.
    pose proof (NoDup_keys_agree _ (nickname, w) (nickname, ws) Hnd' Hw
                  (map_set_elem nickname ws (Chat.users c)) eq_refl) as Heq.
    congruence.
  - intros n w Hne. by apply map_set_other.
  - reflexivity.
Qed.

(** X9. Closing a socket removes exactly its bindings: with the nicknames
    of the registry distinct, the registry afterwards is the old one
    without the entries bound to the socket, in the same order, and each
    open connection got one departure notice per removed nickname, in the
    order of the registry. *)
Theorem X9_close_removes_bindings_of_socket (c : Chat.t) (ws : nat) :
  NoDup (Chat.users c).*1 →
  Chat.users (Chat.on_close ws c) = filter (λ e, e.2 ≠ ws) (Chat.users c) ∧
  NoDup (Chat.users (Chat.on_close ws c)).*1 ∧
  Chat.clients (Chat.on_close ws c)
  = deliver (departures ws (Chat.users c)) <$> Chat.clients c.
Proof.
  intros Hnd. unfold Chat.on_close.
  destruct (on_close_fold ws (Chat.users c) c) as [Hu Hc].
  assert (filter (λ e, e.1 ∉ (filter (λ e, e.2 = ws) (Chat.users c)).*1) (Chat.users c)
          = filter (λ e, e.2 ≠ ws) (Chat.users c)) as Hfilter.
  { apply filter_ext_in. intros x Hx. split.
    - intros Hnotin Hbound. apply Hnotin. apply list_elem_of_fmap_2.
      by apply list_elem_of_filter.
    - intros Hother Hin. apply list_elem_of_fmap in Hin as (y & Hkey & Hy).
      apply list_elem_of_filter in Hy as [Hbound Hy].
      by rewrite (NoDup_keys_agree _ x y Hnd Hx Hy Hkey) in Hother. }
  rewrite Hu, Hc, Hfilter. split; [done|]. split; [|done].
  by apply NoDup_keys_filter.
Qed.

(** X10. Closing a socket that no nickname is bound to does nothing: the
    registry and every connection are as before and no frame is sent. *)
Theorem X10_close_of_unbound_socket_is_silent (c : Chat.t) (ws : nat) :
  (∀ e, e ∈ Chat.users c → e.2 ≠ ws) → Chat.on_close ws c = c.
Proof.
  unfold Chat.on_close. generalize (Chat.users c). intros l.
  revert c. induction l as [|e l IH]; intros c Hall; [done|].
  cbn [fold_left]. rewrite decide_False by (apply Hall; by left).
  apply IH. intros x Hx. apply Hall. by right.
Qed.

(** X11. A nickname can be taken over.  When a nickname bound to socket
    [ws1] logs in from another socket [ws2] and [ws1] closes afterwards,
    the nickname stays bound to [ws2] and is not among the nicknames whose
    departure is announced. *)
Theorem X11_nickname_takeover_survives_close
    (c : Chat.t) (ws1 ws2 : nat) (nickname : string) :
  NoDup (Chat.users c).*1 → (nickname, ws1) ∈ Chat.users c → ws1 ≠ ws2 →
  (nickname, ws2)
    ∈ Chat.users (Chat.on_close ws1 (Chat.on_message ws2 (Chat.Login nickname) c)) ∧
  nickname
    ∉ (filter (λ e, e.2 = ws1)
              (Chat.users (Chat.on_message ws2 (Chat.Login nickname) c))).*1.
Proof.
  intros Hnd _ Hne.
  pose proof (map_set_NoDup nickname ws2 (Chat.users c) Hnd) as Hnd'.
  pose proof (map_set_elem nickname ws2 (Chat.users c)) as Hin.
  destruct (on_close_fold ws1 (Chat.users (Chat.on_message ws2 (Chat.Login nickname) c))
              (Chat.on_message ws2 (Chat.Login nickname) c)) as [Hu _].
  assert (nickname ∉ (filter (λ e, e.2 = ws1)
            (Chat.users (Chat.on_message ws2 (Chat.Login nickname) c))).*1) as Hnot.
  { cbn [Chat.on_message Chat.broadcast Chat.users].
    intros Hk. apply list_elem_of_fmap in Hk as (y & Hkey & Hy).
    apply list_elem_of_filter in Hy as [Hbound Hy].
    pose proof (NoDup_keys_agree _ (nickname, ws2) y Hnd' Hin Hy Hkey) as <-.
    cbn in Hbound. congruence. }
  split; [|done].
  unfold Chat.on_close. rewrite Hu. apply list_elem_of_filter. split; [done|].
  exact Hin.
Qed.

(** X12. Whatever the relay handles, a frame or a close, it adds and
    drops no connection, changes no [readyState], only appends to what a
    connection was sent, and sends nothing to a connection that is not
    open. *)
Theorem X12_relay_only_appends_frames (i : chat_input) (c : Chat.t) :
  dom (Chat.clients (chat_handle i c)) = dom (Chat.clients c) ∧
  ∀ k client, Chat.clients c !! k = Some client →
    ∃ client', Chat.clients (chat_handle i c) !! k = Some client' ∧
               Chat.state client' = Chat.state client ∧
               Chat.sent client `prefix_of` Chat.sent client' ∧
               (Chat.state client ≠ Chat.OPEN → client' = client).
Proof.
  assert (∃ frames, Chat.clients (chat_handle i c) = deliver frames <$> Chat.clients c)
    as [frames Hc].
  { destruct i as [ws [n|n content|]|ws]; cbn [chat_handle Chat.on_message].
    - eexists. reflexivity.
    - eexists. reflexivity.
    - exists []. rewrite <- (map_fmap_id (Chat.clients c)) at 1.
      apply map_fmap_ext. intros k client _. symmetry. apply deliver_nil.
    - eexists. unfold Chat.on_close. apply (on_close_fold ws (Chat.users c) c). }
  rewrite Hc. split; [apply dom_fmap_L|].
  intros k client Hk. rewrite lookup_fmap, Hk. cbn.
  eexists. split; [reflexivity|]. unfold deliver.
  destruct (decide (Chat.state client = Chat.OPEN)); cbn.
  - split; [done|]. split; [by apply prefix_app_r|done].
  - done.
Qed.

(** ** Pentest tools *)

(** X13. [runTool] hands a command to the shell only for [nmap], and then
    exactly the one command made of ["nmap -sP "] and the target as given;
    it resolves exactly for the four simulated tools and for an [nmap] run
    whose command succeeded; it rejects with one of two fixed messages,
    so nothing of a failed command's error is passed on. *)
Theorem X13_runTool_outcomes (execPromise : string → option string) (tool target : string) :
  (Pentest.runTool execPromise tool target).1
  = (if decide (tool = "nmap") then ["nmap -sP " +:+ target] else []) ∧
  ((∃ r, (Pentest.runTool execPromise tool target).2 = Pentest.Resolved r)
   ↔ tool ∈ ["aircrack"; "metasploit"; "wireshark"; "hydra"]
     ∨ (tool = "nmap" ∧ is_Some (execPromise ("nmap -sP " +:+ target)))) ∧
  (∀ m, (Pentest.runTool execPromise tool target).2 = Pentest.Rejected m →
        (tool = "nmap" ∧ execPromise ("nmap -sP " +:+ target) = None
         ∧ m = "Errore durante la scansione Nmap")
        ∨ ((tool ∉ ["nmap"; "aircrack"; "metasploit"; "wireshark"; "hydra"])
           ∧ m = "Tool non supportato")).
Proof.
  unfold Pentest.runTool, Pentest.runNmap.
  destruct (decide (tool = "nmap")) as [->|Hn].
  { cbn. split; [done|]. split.
    - split.
      + intros [r Hr]. right. split; [done|].
        destruct (execPromise ("nmap -sP " +:+ target)); [eauto|done].
      + intros [Hin|[_ [out Hout]]].
        * rewrite !elem_of_cons in Hin. rewrite elem_of_nil in Hin.
          destruct Hin as [?|[?|[?|[?|[]]]]]; discriminate.
        * rewrite Hout. eauto.
    - intros m Hm. left. destruct (execPromise ("nmap -sP " +:+ target)); [done|].
      injection Hm as <-. done. }
  destruct (decide (tool = "aircrack")) as [->|Ha];
    [cbn; split; [done|]; split;
      [split; [intros _; left; set_solver|eauto]|intros m; discriminate]|].
  destruct (decide (tool = "metasploit")) as [->|Hm];
    [cbn; split; [done|]; split;
      [split; [intros _; left; set_solver|eauto]|intros m; discriminate]|].
  destruct (decide (tool = "wireshark")) as [->|Hw];
    [cbn; split; [done|]; split;
      [split; [intros _; left; set_solver|eauto]|intros m; discriminate]|].
  destruct (decide (tool = "hydra")) as [->|Hh];
    [cbn; split; [done|]; split;
      [split; [intros _; left; set_solver|eauto]|intros m; discriminate]|].
  cbn. split; [done|]. split.
  - split; [by intros [r Hr]|].
    intros [Hin|[? _]]; [|done].
    rewrite !elem_of_cons, elem_of_nil in Hin.
    destruct Hin as [?|[?|[?|[?|[]]]]]; done.
  - intros m [= <-]. right. split; [|done].
    rewrite !not_elem_of_cons. repeat split; try done. apply not_elem_of_nil.
Qed.

(** ** The routes of the server *)

Section ServerProperties.

Variable scrypt : string -> string -> Z -> Z -> Z -> Z -> list Byte.byte.
Variable crypto_secretbox_easy : string -> list Byte.byte -> list Byte.byte -> list Byte.byte.
Variable crypto_secretbox_open_easy :
  list Byte.byte -> list Byte.byte -> list Byte.byte -> option (list Byte.byte).
Variable execPromise : string -> option string.

Lemma inv_handle (a : arrival) (s : State) :
  inv s → inv (handle crypto_secretbox_easy execPromise a s).2.
Proof.
  intros Hinv. unfold handle.
  destruct (req a) as [x y n|x y cond n|tool target]; cbn.
  - by apply inv_createTransaction.
  - apply (inv_createContract x y cond n (clock a) s Hinv).
  - by destruct (Pentest.runTool execPromise tool target).2.
Qed.

Lemma envelope_opens (data : string) (k n : list Byte.byte) :
  (∀ (m : string) (n k : list Byte.byte),
     length k = crypto_secretbox_KEYBYTES → length n = crypto_secretbox_NONCEBYTES →
     crypto_secretbox_open_easy (crypto_secretbox_easy m n k) n k
     = Some (list_byte_of_string m)) →
  length k = crypto_secretbox_KEYBYTES → length n = crypto_secretbox_NONCEBYTES →
  decrypt crypto_secretbox_open_easy
          (ciphertext (encrypt crypto_secretbox_easy k n data))
          (nonce (encrypt crypto_secretbox_easy k n data))
          (key (encrypt crypto_secretbox_easy k n data))
  = Normal data.
Proof.
  intros Hlib Hk Hn. unfold decrypt, encrypt. cbn.
  rewrite !hex_decode_encode, Hlib by done.
  by rewrite string_of_list_byte_of_string.
Qed.

(** X14. The transfer route.  On a reachable state a transfer request is
    answered with success, appends exactly the requested transaction to
    the pool and leaves chain and contracts alone.  The envelope of the
    answer carries its own key: decrypting its ciphertext with the nonce
    and key found beside it gives the JSON text of the request (under
    libsodium's contract for boxes made with a key and nonce of the
    library's sizes). *)
Theorem X14_transfer_route (a : arrival) (s : State) (sender receiver : string) (amount : Z) :
  (∀ (m : string) (n k : list Byte.byte),
     length k = crypto_secretbox_KEYBYTES → length n = crypto_secretbox_NONCEBYTES →
     crypto_secretbox_open_easy (crypto_secretbox_easy m n k) n k
     = Some (list_byte_of_string m)) →
  length (rnd_key a) = crypto_secretbox_KEYBYTES →
  length (rnd_nonce a) = crypto_secretbox_NONCEBYTES →
  reachable scrypt s →
  req a = PostTransfer sender receiver amount →
  ∃ e s',
    handle crypto_secretbox_easy execPromise a s = (TransferOk e, s') ∧
    pool s' = pool s ++ [mkTransaction sender receiver amount] ∧
    chain s' = chain s ∧ contracts s' = contracts s ∧
    Hex.decode (key e) = rnd_key a ∧
    decrypt crypto_secretbox_open_easy (ciphertext e) (nonce e) (key e)
    = Normal (stringify (tx_json (mkTransaction sender receiver amount))).
Proof.
  intros Hlib Hk Hn Hreach Hreq. apply reachable_inv in Hreach.
  unfold handle. rewrite Hreq. eexists _, _. split; [reflexivity|].
  split; [by apply pool_createTransaction|]. split; [done|]. split; [done|].
  split; [apply hex_decode_encode|]. by apply envelope_opens.
Qed.

(** X15. The contract route.  A contract request is answered with
    success and the created contract: its id is the number of contracts
    made before, it carries the requested terms and the time of the
    request, and it is not executed.  It is appended to the contracts;
    chain and pool are left alone.  The envelope opens, with the key it
    carries, to the JSON text of the request. *)
Theorem X15_smartcontract_route (a : arrival) (s : State)
    (partyA partyB : string) (condition amount : Z) :
  (∀ (m : string) (n k : list Byte.byte),
     length k = crypto_secretbox_KEYBYTES → length n = crypto_secretbox_NONCEBYTES →
     crypto_secretbox_open_easy (crypto_secretbox_easy m n k) n k
     = Some (list_byte_of_string m)) →
  length (rnd_key a) = crypto_secretbox_KEYBYTES →
  length (rnd_nonce a) = crypto_secretbox_NONCEBYTES →
  req a = PostSmartcontract partyA partyB condition amount →
  ∃ c e s',
    handle crypto_secretbox_easy execPromise a s = (SmartcontractOk c e, s') ∧
    c = Contract.mk (Z.of_nat (length (contracts s))) partyA partyB condition amount
                    (clock a) false ∧
    contracts s' = contracts s ++ [c] ∧
    chain s' = chain s ∧ pool s' = pool s ∧
    decrypt crypto_secretbox_open_easy (ciphertext e) (nonce e) (key e)
    = Normal (stringify (contract_request_json partyA partyB condition amount)).
Proof.
  intros Hlib Hk Hn Hreq. unfold handle. rewrite Hreq. cbn.
  eexists _, _, _. split; [reflexivity|]. split; [done|]. split; [done|].
  split; [done|]. split; [done|]. by apply envelope_opens.
Qed.

Lemma serve_effect (arrivals : list arrival) (s : State) :
  inv s →
  ∃ new,
    length (serve crypto_secretbox_easy execPromise arrivals s).1 = length arrivals ∧
    chain (serve crypto_secretbox_easy execPromise arrivals s).2 = chain s ∧
    pool (serve crypto_secretbox_easy execPromise arrivals s).2
    = pool s ++ transfers arrivals ∧
    contracts (serve crypto_secretbox_easy execPromise arrivals s).2 = contracts s ++ new ∧
    length new = length (List.filter is_PostSmartcontract arrivals) ∧
    Forall (λ c, Contract.executed c = false) new.
Proof.
  revert s. induction arrivals as [|a rest IH]; intros s Hinv.
  - exists []. cbn. by rewrite !app_nil_r.
  - cbn [serve].
    pose proof (inv_handle a s Hinv) as Hinv1.
    destruct (handle crypto_secretbox_easy execPromise a s) as [r s1] eqn:Hh.
    cbn [snd] in Hinv1. destruct (IH s1 Hinv1) as (new & Hlen & Hchain & Hpool & Hcs & Hnew & Hex).
    destruct (serve crypto_secretbox_easy execPromise rest s1) as [rs s2].
    cbn [fst snd] in *. unfold transfers, is_PostSmartcontract in *.
    rewrite bind_cons. cbn [List.filter]. unfold handle in Hh.
    destruct (req a) as [x y n|x y cond n|tool target].
    + injection Hh as <- <-. exists new. cbn [length].
      rewrite Hlen, Hchain, Hpool, Hcs, (pool_createTransaction x y n s Hinv).
      cbn. by rewrite <- app_assoc.
    + cbn in Hh. injection Hh as <- <-.
      exists (Contract.mk (Z.of_nat (length (contracts s))) x y cond n (clock a) false :: new).
      cbn [length]. rewrite Hlen, Hchain, Hpool, Hcs, Hnew. cbn.
      rewrite <- app_assoc. repeat split; try done. by constructor.
    + assert (s1 = s) as ->.
      { by destruct (Pentest.runTool execPromise tool target).2; injection Hh as <- <-. }
      exists new. cbn [length]. by rewrite Hlen.
Qed.

(** X16. Through the three routes alone no block is mined and no contract
    is executed.  After initialisation and any requests, each request got
    one answer, the chain is still the genesis block alone, the pool
    holds the requested transfers in order, there is one contract per
    contract request and none of them is executed. *)
Theorem X16_routes_never_mine_nor_execute (now_field now_seal : Z) (arrivals : list arrival) :
  length (serve crypto_secretbox_easy execPromise arrivals
                (boot scrypt now_field now_seal)).1 = length arrivals ∧
  chain (serve crypto_secretbox_easy execPromise arrivals
               (boot scrypt now_field now_seal)).2
  = chain (boot scrypt now_field now_seal) ∧
  length (chain (serve crypto_secretbox_easy execPromise arrivals
                       (boot scrypt now_field now_seal)).2) = 1%nat ∧
  pool (serve crypto_secretbox_easy execPromise arrivals
              (boot scrypt now_field now_seal)).2
  = transfers arrivals ∧
  length (contracts (serve crypto_secretbox_easy execPromise arrivals
                           (boot scrypt now_field now_seal)).2)
  = length (List.filter is_PostSmartcontract arrivals) ∧
  Forall (λ c, Contract.executed c = false)
         (contracts (serve crypto_secretbox_easy execPromise arrivals
                           (boot scrypt now_field now_seal)).2).
Proof.
  destruct (serve_effect arrivals _ (inv_boot scrypt now_field now_seal))
    as (new & Hlen & Hchain & Hpool & Hcs & Hnew & Hex).
  rewrite Hlen, Hchain, Hpool, Hcs. cbn. done.
Qed.

End ServerProperties.

(** ** The further properties at concrete inputs *)

Lemma mined_state_reachable :
  reachable sample_scrypt
    (state_after [CreateTransaction "alice" "bob" 5; MineBlock 1 1100]
                 (boot sample_scrypt 1000 1000)).
Proof.
  exists 1000, 1000, [CreateTransaction "alice" "bob" 5; MineBlock 1 1100].
  vm_compute. reflexivity.
Qed.

Lemma X3_mined_blocks_are_sealed_witness :
  ∃ b, chain (state_after [CreateTransaction "alice" "bob" 5; MineBlock 1 1100]
                          (boot sample_scrypt 1000 1000)) !! 1%nat = Some b ∧
       Block.hash b =
       calculateHash sample_scrypt (Block.index b) (Block.previousHash b)
                     (Block.timestamp b)
                     (block_transactions
                        (state_after [CreateTransaction "alice" "bob" 5; MineBlock 1 1100]
                                     (boot sample_scrypt 1000 1000)) b).
Proof.
  destruct (chain (state_after [CreateTransaction "alice" "bob" 5; MineBlock 1 1100]
                               (boot sample_scrypt 1000 1000)) !! 1%nat)
    as [b|] eqn:Hb; [|vm_compute in Hb; discriminate].
  exists b. split; [reflexivity|].
  exact (X3_mined_blocks_are_sealed sample_scrypt _ 0%nat b mined_state_reachable Hb).
Defined.

Lemma X4_seal_ignores_previous_hash_witness :
  ∃ b, chain (state_after [CreateTransaction "alice" "bob" 5; MineBlock 1 1100]
                          (boot sample_scrypt 1000 1000)) !! 1%nat = Some b ∧
       Block.hash b =
       calculateHash sample_scrypt (Block.index b) (HPromise "00") (Block.timestamp b)
                     (block_transactions
                        (state_after [CreateTransaction "alice" "bob" 5; MineBlock 1 1100]
                                     (boot sample_scrypt 1000 1000)) b).
Proof.
  destruct (chain (state_after [CreateTransaction "alice" "bob" 5; MineBlock 1 1100]
                               (boot sample_scrypt 1000 1000)) !! 1%nat)
    as [b|] eqn:Hb; [|vm_compute in Hb; discriminate].
  exists b. split; [reflexivity|].
  exact (proj2 (X4_seal_ignores_previous_hash sample_scrypt _ 0%nat b
                  mined_state_reachable Hb) "00").
Defined.

Lemma X6_spent_contract_stays_refused_witness :
  executeContract 0 2500 (state_after [MineBlock 1 2100] scenario)
  = Normal (false, state_after [MineBlock 1 2100] scenario).
Proof.
  apply (X6_spent_contract_stays_refused sample_scrypt scenario _ 0 2001 2500
           (Contract.mk 0 "A" "B" 2000 50 1000 false) [MineBlock 1 2100]).
  - reflexivity.
  - right. cbn. lia.
  - vm_compute. reflexivity.
  - lia.
Defined.

Lemma X7_contract_terms_are_permanent_witness :
  length (contracts (state_after [ExecuteContract 0 1500; CreateContract "C" "D" 3000 7 1600]
                                 scenario))
  = (length (contracts scenario)
     + count_calls is_CreateContract
         [ExecuteContract 0 1500; CreateContract "C" "D" 3000 7 1600])%nat.
Proof.
  apply (X7_contract_terms_are_permanent sample_scrypt
           [ExecuteContract 0 1500; CreateContract "C" "D" 3000 7 1600] scenario).
  vm_compute. reflexivity.
Defined.

Lemma lobby_names_distinct : NoDup (Chat.users lobby).*1.
Proof.
  cbn. apply NoDup_cons. split; [|apply NoDup_singleton].
  intros Hin. apply list_elem_of_singleton in Hin. discriminate.
Qed.

Lemma X8_login_binds_nickname_witness :
  ("carol", 1%nat) ∈ Chat.users (Chat.on_message 1 (Chat.Login "carol") lobby).
Proof.
  destruct (X8_login_binds_nickname lobby 1 "carol" lobby_names_distinct)
    as (_ & Hbound & _).
  exact Hbound.
Defined.

Lemma X9_close_removes_bindings_of_socket_witness :
  Chat.users (Chat.on_close 1 lobby) = filter (λ e, e.2 ≠ 1%nat) (Chat.users lobby).
Proof.
  destruct (X9_close_removes_bindings_of_socket lobby 1 lobby_names_distinct)
    as (Husers & _).
  exact Husers.
Defined.

Lemma X10_close_of_unbound_socket_is_silent_witness : Chat.on_close 3 lobby = lobby.
Proof.
  apply (X10_close_of_unbound_socket_is_silent lobby 3).
  intros e He. unfold lobby in He. cbn in He.
  apply elem_of_cons in He as [->|He]; [cbn; lia|].
  apply list_elem_of_singleton in He as ->. cbn. lia.
Defined.

Lemma X11_nickname_takeover_survives_close_witness :
  ("alice", 2%nat)
    ∈ Chat.users (Chat.on_close 1 (Chat.on_message 2 (Chat.Login "alice") lobby)).
Proof.
  destruct (X11_nickname_takeover_survives_close lobby 1 2 "alice" lobby_names_distinct)
    as [Hkept _].
  - left.
  - lia.
  - exact Hkept.
Defined.

Lemma X14_transfer_route_witness :
  ∃ e s',
    handle sample_secretbox_easy sample_exec
           (mkArrival (PostTransfer "alice" "bob" 5) (replicate 32 Byte.x2a)
                      (replicate 24 Byte.x07) 1200) scenario
    = (TransferOk e, s') ∧
    pool s' = pool scenario ++ [mkTransaction "alice" "bob" 5] ∧
    chain s' = chain scenario ∧ contracts s' = contracts scenario ∧
    Hex.decode (key e) = replicate 32 Byte.x2a ∧
    decrypt sample_secretbox_open_easy (ciphertext e) (nonce e) (key e)
    = Normal (stringify (tx_json (mkTransaction "alice" "bob" 5))).
Proof.
  apply (X14_transfer_route sample_scrypt sample_secretbox_easy sample_secretbox_open_easy
           sample_exec
           (mkArrival (PostTransfer "alice" "bob" 5) (replicate 32 Byte.x2a)
                      (replicate 24 Byte.x07) 1200)
           scenario "alice" "bob" 5 sample_secretbox_opens).
  - reflexivity.
  - reflexivity.
  - exact scenario_reachable.
  - reflexivity.
Defined.

Lemma X15_smartcontract_route_witness :
  ∃ c e s',
    handle sample_secretbox_easy sample_exec
           (mkArrival (PostSmartcontract "C" "D" 3000 7) (replicate 32 Byte.x2a)
                      (replicate 24 Byte.x07) 1200) scenario
    = (SmartcontractOk c e, s') ∧
    c = Contract.mk (Z.of_nat (length (contracts scenario))) "C" "D" 3000 7 1200 false ∧
    contracts s' = contracts scenario ++ [c] ∧
    chain s' = chain scenario ∧ pool s' = pool scenario ∧
    decrypt sample_secretbox_open_easy (ciphertext e) (nonce e) (key e)
    = Normal (stringify (contract_request_json "C" "D" 3000 7)).
Proof.
  apply (X15_smartcontract_route sample_secretbox_easy sample_secretbox_open_easy
           sample_exec
           (mkArrival (PostSmartcontract "C" "D" 3000 7) (replicate 32 Byte.x2a)
                      (replicate 24 Byte.x07) 1200)
           scenario "C" "D" 3000 7 sample_secretbox_opens); reflexivity.
Defined.

(** A trace with a direct transfer, a mined block, a contract executed in
    time and a second block: the ledger lists both transfers in order. *)
Example ledger_of_a_trace :
  ledger (state_after [CreateTransaction "alice" "bob" 5; MineBlock 1 1100;
                       ExecuteContract 0 1500; MineBlock 1 1600;
                       CreateTransaction "bob" "carol" 2] scenario)
  = [mkTransaction "alice" "bob" 5; mkTransaction "A" "B" 50;
     mkTransaction "bob" "carol" 2].
Proof. vm_compute. reflexivity. Qed.

(** The nmap command is the prefix and the target, whatever the target. *)
Example runTool_nmap_target :
  Pentest.runTool sample_exec "nmap" "10.0.0.1"
  = (["nmap -sP 10.0.0.1"], Pentest.Resolved "Host is up") ∧
  Pentest.runTool sample_exec "nmap" "10.0.0.1; id"
  = (["nmap -sP 10.0.0.1; id"], Pentest.Rejected "Errore durante la scansione Nmap") ∧
  Pentest.runTool sample_exec "Nmap" "10.0.0.1"
  = ([], Pentest.Rejected "Tool non supportato").
Proof. repeat split. Qed.

(** ** Arrays are not shared *)

Lemma arrays_distinct_step scrypt c s s' :
  inv s → NoDup (Block.transactions <$> chain s) →
  step scrypt c s = Normal s' → NoDup (Block.transactions <$> chain s').
Proof.
  intros Hinv Hnd. destruct c as [a b n|d now|a b cond n now|id now]; cbn.
  - by intros [= <-].
  - destruct Hinv as [[_ Hb] _ _ _]. unfold mineBlock.
    destruct (last (chain s)) as [prev|]; [|done]. cbn. intros [= <-]. cbn.
    rewrite fmap_app. apply NoDup_app. split; [done|]. split; [|apply NoDup_singleton].
    intros r Hr Hr'. cbn in Hr'. apply list_elem_of_singleton in Hr' as ->.
    apply list_elem_of_fmap in Hr as (b & Heq & Hin).
    destruct (Hb b Hin) as [_ Hne]. by apply Hne.
  - by intros [= <-].
  - unfold executeContract. destruct (contract_at id s) as [k|]; [|by intros [= <-]].
    destruct (Contract.executed k); [by intros [= <-]|].
    destruct (now <=? Contract.condition k); by intros [= <-].
Qed.

(** X17. After initialisation and any calls, no two blocks of the chain
    refer to the same transaction array and none refers to the array of
    the pool: a later [createTransaction] cannot reach into a block. *)
Theorem X17_blocks_share_no_array scrypt (now_field now_seal : Z) (cs : list call) :
  ∃ s, run scrypt cs (boot scrypt now_field now_seal) = Normal s ∧
       NoDup (Block.transactions <$> chain s) ∧
       transactions s ∉ Block.transactions <$> chain s.
Proof.
  destruct (run_returns scrypt cs _ (inv_boot scrypt now_field now_seal)) as (s & Hs & Hinv).
  exists s. split; [done|]. split.
  - cut (∀ s0, inv s0 → NoDup (Block.transactions <$> chain s0) →
               run scrypt cs s0 = Normal s → NoDup (Block.transactions <$> chain s)).
    { intros Hgen. apply (Hgen _ (inv_boot scrypt now_field now_seal)); [|done].
      cbn. apply NoDup_singleton. }
    clear Hs Hinv. induction cs as [|c cs IH]; intros s0 Hinv0 Hnd; cbn.
    + by intros [= <-].
    + destruct (step scrypt c s0) as [s1|] eqn:Hstep; [|done].
      apply IH; [by eapply inv_step|by eapply arrays_distinct_step].
  - destruct Hinv as [[_ Hb] _ _ _]. intros Hin.
    apply list_elem_of_fmap in Hin as (b & Heq & Hin).
    destruct (Hb b Hin) as [_ Hne]. by apply Hne.
Qed.
